(** * Verification of [train_irl_nn.py]

    A shallow embedding of the IRL training script: the route cost and
    time-window evaluators, the per-route solver call, the batch
    dispatcher, the margin loss, and the epoch loop of [fit] with its
    slicing of the flat predictor output and its checkpoint rule.

    Numbers.  The script computes on Python and NumPy floats.  The
    embedding uses exact rationals ([Q]), so the statements below are
    about the arithmetic the code writes down, not about rounding.
    Sums are accumulated in the same order as the loops of the source;
    two results that differ only by the order of a sum are related by
    [Qeq] ([==]).

    Errors.  An [IndexError], a shape error of [reshape] or of an
    elementwise product, and a [ZeroDivisionError] end the Python call;
    the embedding returns [None] there. *)

From Stdlib Require Import QArith Qminmax Lqa.
From stdpp Require Import base option list strings.

Local Open Scope Q_scope.

(** ** Arrays and sequences *)

(** A 2-D array (NumPy array or torch tensor), row after row. *)
Definition matrix : Type := list (list Q).
(** A stop sequence: indices of stops, in visiting order. *)
Definition sequence : Type := list nat.
(** A time window [(lower, upper)]. *)
Definition window : Type := (Q * Q)%type.

(** [m[i, j]]: an [IndexError] when [i] or [j] is out of range. *)
Definition mat_get (m : matrix) (i j : nat) : option Q :=
  row ← m !! i; row !! j.

(** Python's [range(lo, hi)]. *)
Definition range (lo hi : nat) : list nat := List.seq lo (hi - lo).

(** A [for] loop over [xs] whose body updates the loop state [s] and may
    raise: the first error ends the loop. *)
Fixpoint for_in {A S : Type} (xs : list A) (body : A → S → option S) (s : S)
    : option S :=
  match xs with
  | [] => Some s
  | x :: xs' => s' ← body x s; for_in xs' body s'
  end.

(** ** Route cost and violation evaluator *)

(** [link_features[:, a, b]]: one entry per feature plane. *)
Definition feature_column (link_features : list matrix) (a b : nat)
    : option (list Q) :=
  mapM (λ plane, mat_get plane a b) link_features.

(** Elementwise [+=] of two vectors of the same length. *)
Definition vec_add (u v : list Q) : list Q := zip_with Qplus u v.

(** [compute_link_cost_seq(time_matrix, link_features, seq)]. *)
Definition compute_link_cost_seq (time_matrix : matrix)
    (link_features : list matrix) (seq : sequence) : option (Q * list Q) :=
  let time_cost := 0 in
  let feature_cost := replicate (length link_features) 0 in
  '(time_cost, feature_cost) ←
    for_in (range 1 (length seq))
      (λ idx '(time_cost, feature_cost),
         a ← seq !! (idx - 1)%nat;
         b ← seq !! idx;
         t ← mat_get time_matrix a b;
         f ← feature_column link_features a b;
         Some (time_cost + t, vec_add feature_cost f))
      (time_cost, feature_cost);
  a ← last seq;
  b ← seq !! 0%nat;
  t ← mat_get time_matrix a b;
  f ← feature_column link_features a b;
  Some (time_cost + t, vec_add feature_cost f).

(** [compute_time_violation_seq(time_matrix, time_constraints, seq)]. *)
Definition compute_time_violation_seq (time_matrix : matrix)
    (time_constraints : list window) (seq : sequence) : option Q :=
  let time := 0 in
  let '(violation_down, violation_up) := (0, 0) in
  '(time, violation_down, violation_up) ←
    for_in (range 1 (length seq))
      (λ idx '(time, violation_down, violation_up),
         a ← seq !! (idx - 1)%nat;
         b ← seq !! idx;
         t ← mat_get time_matrix a b;
         let time := time + t in
         w ← time_constraints !! idx;
         let violation_up := violation_up + Qmax 0 (time - w.2) in
         let violation_down := violation_down + Qmax 0 (w.1 - time) in
         Some (time, violation_down, violation_up))
      (time, violation_down, violation_up);
  Some (violation_up + violation_down).

(** ** Per-route solver call

    The solver ([constrained_tsp.constrained_tsp]) and the scorer
    ([eval_utils.score.score]) are external collaborators.  Their calls
    are recorded in a log, in program order, so that what they were
    called with can be stated; an error raised after a call leaves the
    call in the log. *)

Section Route.

(** The types of stop identifiers and of the stop-pair travel-time
    lookup belong to the dataset provider. *)
Context {StopId TimeDict : Type}.

(** The external solver: a pure function from (cost matrix, travel-time
    matrix, time constraints, depot, integral lambda) to a sequence. *)
Variable constrained_tsp :
  matrix → matrix → list window → nat → Z → sequence.
(** The external scorer of two closed stop-identifier cycles. *)
Variable score : list StopId → list StopId → TimeDict → Q.

Inductive ExtCall : Type :=
  | SolverCall (objective_matrix travel_times : matrix)
      (time_constraints : list window) (depot : nat) (lamb : Z)
  | ScoreCall (demo_stop_ids pred_stop_ids : list StopId)
      (travel_time_dict : TimeDict).

(** A computation that logs its external calls and may raise. *)
Definition Ext (A : Type) : Type := (list ExtCall * option A)%type.

Definition ext_ret {A} (a : A) : Ext A := ([], Some a).
Definition ext_bind {A B} (m : Ext A) (k : A → Ext B) : Ext B :=
  match m with
  | (log, None) => (log, None)
  | (log, Some a) => let '(log', r) := k a in (log ++ log', r)
  end.
(** A step that makes no external call. *)
Definition ext_lift {A} (o : option A) : Ext A := ([], o).

Definition call_solver (objective_matrix travel_times : matrix)
    (time_constraints : list window) (depot : nat) (lamb : Z) : Ext sequence :=
  ([SolverCall objective_matrix travel_times time_constraints depot lamb],
   Some (constrained_tsp objective_matrix travel_times time_constraints
           depot lamb)).

Definition call_score (demo_stop_ids pred_stop_ids : list StopId)
    (travel_time_dict : TimeDict) : Ext Q :=
  ([ScoreCall demo_stop_ids pred_stop_ids travel_time_dict],
   Some (score demo_stop_ids pred_stop_ids travel_time_dict)).

(** The record [data] that [fit] builds for one route. *)
Record RouteData : Type := mkRouteData {
  rd_objective_matrix : matrix;
  rd_travel_times : matrix;
  rd_time_constraints : list window;
  rd_stop_ids : list StopId;
  rd_travel_time_dict : TimeDict;
  rd_label : sequence;
}.

(** The tuple [(pred_seq, demo_tv, pred_tv, seq_score)]. *)
Record RouteOutput : Type := mkRouteOutput {
  out_pred_seq : sequence;
  out_demo_tv : Q;
  out_pred_tv : Q;
  out_seq_score : Q;
}.

(** Python's [int(x)] on a number: truncation toward zero. *)
Definition int_of (x : Q) : Z := Z.quot (Qnum x) (Z.pos (Qden x)).

(** [[stop_ids[j] for j in seq]] followed by [.append(ids[0])]. *)
Definition closed_stop_ids (stop_ids : list StopId) (seq : sequence)
    : option (list StopId) :=
  ids ← mapM (λ j, stop_ids !! j) seq;
  first ← ids !! 0%nat;
  Some (ids ++ [first]).

(** [compute_tsp_seq_for_route(data, lamb)]. *)
Definition compute_tsp_seq_for_route (data : RouteData) (lamb : Q)
    : Ext RouteOutput :=
  let objective_matrix := rd_objective_matrix data in
  let travel_times := rd_travel_times data in
  let time_constraints := rd_time_constraints data in
  let stop_ids := rd_stop_ids data in
  let travel_time_dict := rd_travel_time_dict data in
  let label := rd_label data in
  ext_bind (ext_lift (closed_stop_ids stop_ids label)) (λ demo_stop_ids,
  ext_bind (ext_lift (label !! 0%nat)) (λ depot,
  ext_bind (call_solver objective_matrix travel_times time_constraints
              depot (int_of lamb)) (λ pred_seq,
  ext_bind (ext_lift (compute_time_violation_seq travel_times
                        time_constraints pred_seq)) (λ pred_tv,
  ext_bind (ext_lift (compute_time_violation_seq travel_times
                        time_constraints label)) (λ demo_tv,
  ext_bind (ext_lift (closed_stop_ids stop_ids pred_seq)) (λ pred_stop_ids,
  ext_bind (call_score demo_stop_ids pred_stop_ids travel_time_dict)
    (λ seq_score,
  ext_ret (mkRouteOutput pred_seq demo_tv pred_tv seq_score)))))))).

(** ** Batch dispatcher

    [Pool.map] hands the tasks to worker processes and blocks until all
    of them are done.  Each finished task's outcome is stored in the
    result slot of the task's index; the order in which tasks finish is
    not fixed, so it is a parameter of the model ([completion], the
    task indices in order of completion).  When every slot is filled
    the slots are read in index order; an exception raised by a task is
    raised again by [map]. *)

Definition pool_map {A B : Type} (f : A → option B) (xs : list A)
    (completion : list nat) : option (list B) :=
  let slots :=
    foldl (λ (slots : list (option (option B))) i,
             match xs !! i with
             | Some x => <[i := Some (f x)]> slots
             | None => slots
             end)
          (replicate (length xs) None) completion in
  outcomes ← mapM id slots;
  mapM id outcomes.

(** [compute_tsp_seq_for_a_batch(batch_data, lamb)]. *)
Definition compute_tsp_seq_for_a_batch (batch_data : list RouteData)
    (lamb : Q) (completion : list nat) : option (list RouteOutput) :=
  let tsp_func := λ data, (compute_tsp_seq_for_route data lamb).2 in
  let batch_output := pool_map tsp_func batch_data completion in
  batch_output.

End Route.

(** ** Margin loss aggregator *)

(** The cyclic edges of a sequence: the consecutive pairs
    [(seq[i-1], seq[i])], [i = 1 .. N-1], then the closing pair
    [(seq[N-1], seq[0])]. *)
Fixpoint consecutive_pairs (seq : sequence) : list (nat * nat) :=
  match seq with
  | a :: ((b :: _) as rest) => (a, b) :: consecutive_pairs rest
  | _ => []
  end.

Definition closing_pair (seq : sequence) : list (nat * nat) :=
  match last seq, head seq with
  | Some a, Some b => [(a, b)]
  | _, _ => []
  end.

Definition cyclic_pairs (seq : sequence) : list (nat * nat) :=
  consecutive_pairs seq ++ closing_pair seq.

(** Modelled from the spec: [dataloaders.irl_dataset.seq_binary_mat] is
    not among the source files.  The spec (4.3) describes its result:
    "the indicator matrix has a 1 at (seq[i-1], seq[i]) for every
    consecutive (cyclic) pair and 0 elsewhere"; it is square, of the size
    of the sequence, like the cost matrix it is multiplied with. *)
Definition seq_binary_mat (seq : sequence) : matrix :=
  let n := length seq in
  (λ i, (λ j, if bool_decide ((i, j) ∈ cyclic_pairs seq) then 1 else 0)
          <$> range 0 n) <$> range 0 n.

(** The length of every row: for a rectangular array, its shape. *)
Definition row_lengths (m : matrix) : list nat := length <$> m.

(** The sum of a list of numbers, added from left to right. *)
Definition Qsum (l : list Q) : Q := foldl Qplus 0 l.

(** [torch.sum(a * b)] for two tensors of the same shape.  A product of
    tensors whose shapes differ is taken as the shape error it is for
    every pair of sizes other than 1 (broadcasting of a size-1 axis is
    not modelled). *)
Definition mul_sum (a b : matrix) : option Q :=
  if decide (row_lengths a = row_lengths b)
  then Some (Qsum (concat (zip_with (zip_with Qmult) a b)))
  else None.

(** [F.relu]. *)
Definition relu (x : Q) : Q := Qmax 0 x.

(** The model's trainable state: the scalar [lamb] and the parameters
    of the cost-matrix network. *)
Record Model : Type := mkModel {
  lamb : Q;
  net_params : list Q;
}.

Section Fit.

Context {StopId TimeDict Features : Type}.

(** One route sample of the dataset provider. *)
Record RouteSample : Type := mkRouteSample {
  travel_times : matrix;
  time_constraints : list window;
  stop_ids : list StopId;
  travel_time_dict : TimeDict;
  label : sequence;
  binary_mat : matrix;
}.

(** [irl_loss(batch_output, thetas_tensor, tsp_data, model)]. *)
Definition irl_loss (batch_output : list RouteOutput)
    (thetas_tensor : list matrix) (tsp_data : list RouteSample)
    (model : Model) : option Q :=
  let loss := 0 in
  loss ←
    for_in (range 0 (length batch_output))
      (λ route_idx loss,
         out ← batch_output !! route_idx;
         let pred_seq := out_pred_seq out in
         let demo_tv := out_demo_tv out in
         let pred_tv := out_pred_tv out in
         theta ← thetas_tensor !! route_idx;
         pred_cost ← mul_sum (seq_binary_mat pred_seq) theta;
         data ← tsp_data !! route_idx;
         demo_cost ← mul_sum (binary_mat data) theta;
         let route_loss :=
           relu ((demo_cost + lamb model * demo_tv)
                 - (pred_cost + lamb model * pred_tv)) in
         Some (loss + route_loss))
      loss;
  match length batch_output with
  | O => None
  | S _ => Some (loss / inject_Z (Z.of_nat (length batch_output)))
  end.

(** ** Training orchestrator *)

(** [t[lo : hi]] for [lo <= hi]: out-of-range bounds are clamped. *)
Definition slice {A} (lo hi : nat) (t : list A) : list A :=
  take (hi - lo) (drop lo t).

(** The rows of a flat array of [rows * cols] entries. *)
Fixpoint rows_of (rows cols : nat) (t : list Q) : matrix :=
  match rows with
  | O => []
  | S rows' => take cols t :: rows_of rows' cols (drop cols t)
  end.

(** [t.reshape((rows, cols))]: an error unless [t] has [rows * cols]
    entries. *)
Definition reshape (rows cols : nat) (t : list Q) : option matrix :=
  if decide (length t = (rows * cols)%nat)
  then Some (rows_of rows cols t)
  else None.

(** The slicing loop of [fit]: the per-route cost matrices cut out of
    the flat predictor output by a running offset. *)
Definition slice_thetas (obj_matrix : list Q) (tsp_data : list RouteSample)
    : option (list matrix) :=
  let idx_so_far := 0%nat in
  let thetas_tensor := [] in
  '(idx_so_far, thetas_tensor) ←
    for_in tsp_data
      (λ data '(idx_so_far, thetas_tensor),
         let route_len := length (travel_times data) in
         theta ← reshape route_len route_len
                   (slice idx_so_far (idx_so_far + route_len * route_len)
                      obj_matrix);
         Some ((idx_so_far + route_len * route_len)%nat,
               thetas_tensor ++ [theta]))
      (idx_so_far, thetas_tensor);
  Some thetas_tensor.

(** The external collaborators of a training run. *)
Variable constrained_tsp :
  matrix → matrix → list window → nat → Z → sequence.
Variable score : list StopId → list StopId → TimeDict → Q.
(** The cost-matrix predictor applied to the stacked features of a
    batch: the flat output [obj_matrix]. *)
Variable predictor : Model → list Features → list Q.
(** [loss.backward(); optimizer.step()]: the optimizer's state and the
    model after the update, from the data the loss was computed on. *)
Context {OptState : Type}.
Variable optimizer_init : Model → Q → OptState.
Variable optimizer_step :
  OptState → Model → list Features → list RouteSample →
  list RouteOutput → OptState * Model.

Record Config : Type := mkConfig {
  learning_rate : Q;
  batch_size : nat;
  num_train_epochs : nat;
  training_dir : string;
  name : string;
}.

(** A [torch.utils.data.DataLoader] over a dataset, as [main] builds
    it: sequential batches of [loader_batch_size] samples, the last one
    shorter when the sizes do not divide.  (Torch refuses to build a
    loader whose batch size is not positive.) *)
Record DataLoader : Type := mkDataLoader {
  dataset : list (Features * RouteSample);
  loader_batch_size : nat;
}.

(** [len(dataloader)]. *)
Definition loader_len (dl : DataLoader) : nat :=
  ((length (dataset dl) + loader_batch_size dl - 1) / loader_batch_size dl)%nat.

(** The batches the loader yields, collated into
    [(nn_data, tsp_data)]. *)
Definition loader_batches (dl : DataLoader)
    : list (list Features * list RouteSample) :=
  (λ k, let b := slice (k * loader_batch_size dl)
                   ((k + 1) * loader_batch_size dl) (dataset dl) in
        (b.*1, b.*2)) <$> range 0 (loader_len dl).

(** What the run writes: scalars to the metrics writer and model states
    to files. *)
Inductive Event : Type :=
  | AddScalar (tag : string) (value : Q) (global_step : nat)
  | TorchSave (state_dict : Model) (path : string).

(** [np.mean] of a non-empty array.  ([fit] reaches it only after
    [irl_loss], which has already raised on an empty batch.) *)
Definition np_mean (l : list Q) : option Q :=
  match length l with
  | O => None
  | S _ => Some (Qsum l / inject_Z (Z.of_nat (length l)))
  end.

(** [x / n] for a Python number and an [int]. *)
Definition py_div (x : Q) (n : nat) : option Q :=
  match n with
  | O => None
  | S _ => Some (x / inject_Z (Z.of_nat n))
  end.

(** The tuple [fit] appends to [batch_data] for one route: the detached
    copy of the route's cost matrix (the same numbers) and the fields of
    the sample. *)
Definition batch_record (theta : matrix) (data : RouteSample)
    : RouteData (StopId := StopId) (TimeDict := TimeDict) :=
  mkRouteData theta (travel_times data) (time_constraints data)
    (stop_ids data) (travel_time_dict data) (label data).

(** The state of the step loop. *)
Record StepState : Type := mkStepState {
  ss_model : Model;
  ss_opt : OptState;
  ss_epoch_loss : Q;
  ss_epoch_score : Q;
  ss_writer : list Event;
}.

(** One pass of the body of the step loop of [fit].  [completion] is
    the order in which the pool's workers finish in this step. *)
Definition train_step (epoch_idx len_dataloader : nat)
    (batch : list Features * list RouteSample) (completion : list nat)
    (st : StepState) : option StepState :=
  let '(nn_data, tsp_data) := batch in
  let model := ss_model st in
  let obj_matrix := predictor model nn_data in
  thetas_tensor ← slice_thetas obj_matrix tsp_data;
  let thetas_np := thetas_tensor in
  let batch_data := zip_with batch_record thetas_np tsp_data in
  batch_output ←
    compute_tsp_seq_for_a_batch constrained_tsp score batch_data
      (lamb model) completion;
  loss ← irl_loss batch_output thetas_tensor tsp_data model;
  let '(opt', model') :=
    optimizer_step (ss_opt st) model nn_data tsp_data batch_output in
  mean_score ← np_mean (out_seq_score <$> batch_output);
  (* [idx] still holds the last index of the loops over [tsp_data] *)
  let idx := (length tsp_data - 1)%nat in
  let global_step := (epoch_idx * len_dataloader + idx)%nat in
  Some (mkStepState model' opt'
          (ss_epoch_loss st + loss) (ss_epoch_score st + mean_score)
          (ss_writer st ++
             [AddScalar "Train/batch_route_loss" loss global_step;
              AddScalar "Train/batch_route_score" mean_score global_step])).

(** The state of the epoch loop. *)
Record FitState : Type := mkFitState {
  fs_model : Model;
  fs_opt : OptState;
  fs_best_loss : Q;
  fs_writer : list Event;
}.

(** [config.training_dir + "/best_model_{}.pt".format(config.name)]. *)
Definition checkpoint_path (config : Config) : string :=
  training_dir config +:+ "/best_model_" +:+ name config +:+ ".pt".

(** The step loop of one epoch: the model, the optimizer, the running
    totals and the writer after the last batch. *)
Definition run_steps (dataloader : DataLoader) (schedule : nat → nat → list nat)
    (epoch_idx : nat) (st : FitState) : option StepState :=
  for_in (imap (λ d_idx data, (d_idx, data)) (loader_batches dataloader))
    (λ '(d_idx, data) ss,
       train_step epoch_idx (loader_len dataloader) data
         (schedule epoch_idx d_idx) ss)
    (mkStepState (fs_model st) (fs_opt st) 0 0 (fs_writer st)).

(** The end of an epoch: the two means, the checkpoint rule and the
    epoch scalars. *)
Definition end_epoch (dataloader : DataLoader) (config : Config)
    (epoch_idx : nat) (best_loss : Q) (ss : StepState) : option FitState :=
  mean_epoch_loss ←
    py_div (ss_epoch_loss ss * inject_Z (Z.of_nat (batch_size config)))
      (length (dataset dataloader));
  mean_epoch_score ←
    py_div (ss_epoch_score ss * inject_Z (Z.of_nat (batch_size config)))
      (length (dataset dataloader));
  let '(best_loss, saved) :=
    if Qlt_le_dec mean_epoch_loss best_loss
    then (mean_epoch_loss,
          [TorchSave (ss_model ss) (checkpoint_path config)])
    else (best_loss, []) in
  Some (mkFitState (ss_model ss) (ss_opt ss) best_loss
          (ss_writer ss ++ saved ++
             [AddScalar "Train/loss" mean_epoch_loss epoch_idx;
              AddScalar "Train/score" mean_epoch_score epoch_idx])).

(** One pass of the body of the epoch loop. *)
Definition fit_epoch (dataloader : DataLoader) (config : Config)
    (schedule : nat → nat → list nat) (epoch_idx : nat) (st : FitState)
    : option FitState :=
  ss ← run_steps dataloader schedule epoch_idx st;
  end_epoch dataloader config epoch_idx (fs_best_loss st) ss.

(** [best_loss = 1e10]. *)
Definition initial_best_loss : Q := 10000000000.

(** [fit(model, dataloader, writer, config)]; the writer starts empty. *)
Definition fit (model : Model) (dataloader : DataLoader) (config : Config)
    (schedule : nat → nat → list nat) : option FitState :=
  let optimizer := optimizer_init model (learning_rate config) in
  let best_loss := initial_best_loss in
  for_in (range 0 (num_train_epochs config))
    (fit_epoch dataloader config schedule)
    (mkFitState model optimizer best_loss []).

End Fit.

(** * Vocabulary of the statements

    The definitions below are not translations of the source: they
    name what the statements speak about (the edges of a cycle, elapsed
    times, index ranges, weights). *)

(** ** Loops and edges *)

(** The consecutive pairs of a sequence with the position of their
    second stop, counted from [k]. *)
Fixpoint steps_from (k : nat) (seq : sequence) : list (nat * (nat * nat)) :=
  match seq with
  | a :: ((b :: _) as rest) => (k, (a, b)) :: steps_from (S k) rest
  | _ => []
  end.

(** The sum of the entries of [m] at the edges [es], added to [acc] from
    left to right; an error when an edge is outside [m]. *)
Definition edge_sum (m : matrix) (es : list (nat * nat)) (acc : Q) : option Q :=
  for_in es (λ '(a, b) acc, t ← mat_get m a b; Some (acc + t)) acc.

(** What [compute_link_cost_seq] is said to compute: over the [N] cyclic
    edges of the sequence, the sum of the time matrix and, plane by
    plane, the sum of the feature tensor. *)
Definition link_cost_spec (time_matrix : matrix) (link_features : list matrix)
    (seq : sequence) : option (Q * list Q) :=
  match seq with
  | [] => None
  | _ =>
      time_cost ← edge_sum time_matrix (cyclic_pairs seq) 0;
      feature_cost ←
        mapM (λ plane, edge_sum plane (cyclic_pairs seq) 0) link_features;
      Some (time_cost, feature_cost)
  end.



(** The body of the loop of [compute_link_cost_seq] at the edge [e]. *)
Definition link_loop_body (time_matrix : matrix) (link_features : list matrix)
    (e : nat * nat) (st : Q * list Q) : option (Q * list Q) :=
  t ← mat_get time_matrix e.1 e.2;
  f ← feature_column link_features e.1 e.2;
  Some (st.1 + t, vec_add st.2 f).

(** The pair joining the last stop of [l1] to the first stop of [l2]. *)
Definition junction (l1 l2 : sequence) : list (nat * nat) :=
  match last l1, head l2 with
  | Some a, Some b => [(a, b)]
  | _, _ => []
  end.

Notation "x =q= y" := (option_Forall2 Qeq x y) (at level 70, no associativity).

#[local] Instance opt_Qeq_equiv : Equivalence (option_Forall2 Qeq).
Proof. apply option_Forall2_equiv, Q_Setoid. Qed.

(** A cost matrix that is not symmetric, and a cycle on which the two
    directions cost 3 and 0. *)
Definition one_way_matrix : matrix := [[0; 1; 0]; [0; 0; 1]; [1; 0; 0]].

(** ** Time windows *)

(** The body of the loop of [compute_time_violation_seq] at position
    [idx], reached over the edge [(a, b)]. *)
Definition violation_body (tm : matrix) (tcs : list window)
    (step : nat * (nat * nat)) (st : Q * Q * Q) : option (Q * Q * Q) :=
  let '(idx, (a, b)) := step in
  let '(time, violation_down, violation_up) := st in
  t ← mat_get tm a b;
  w ← tcs !! idx;
  Some (time + t,
        violation_down + Qmax 0 (w.1 - (time + t)),
        violation_up + Qmax 0 (time + t - w.2)).

(** The cumulative elapsed time on arrival at position [i] of the
    sequence: the travel times of the first [i] consecutive edges. *)
Definition elapsed (tm : matrix) (seq : sequence) (i : nat) : option Q :=
  edge_sum tm (take i (consecutive_pairs seq)) 0.

(** The elapsed time at position [i] lies within that position's
    [(lower, upper)] window. *)
Definition within_window (tm : matrix) (tcs : list window) (seq : sequence)
    (i : nat) : Prop :=
  ∃ e w, elapsed tm seq i = Some e ∧ tcs !! i = Some w ∧ w.1 <= e ∧ e <= w.2.

(** [tcs'] is at least as tight as [tcs]: position by position, the
    lower bound is not smaller and the upper bound is not larger. *)
Definition tighter (tcs tcs' : list window) : Prop :=
  Forall2 (λ w w' : window, w.1 <= w'.1 ∧ w'.2 <= w.2) tcs tcs'.

(** A two-stop route whose first window [(5, 10)] does not contain the
    elapsed time 0 of position 0, while position 1 is reached in time. *)
Definition two_stop_times : matrix := [[0; 1]; [1; 0]].
Definition late_start_windows : list window := [(5, 10); (0, 10)].

(** ** In-range edges and penalties *)

(** Every edge of [es] is an index pair of the matrix [m]. *)
Definition edges_in (m : matrix) (es : list (nat * nat)) : Prop :=
  Forall (λ e, is_Some (mat_get m e.1 e.2)) es.

(** The late penalty of position [i]: how far the elapsed time is past
    the upper bound of the window. *)
Definition late_penalty (tm : matrix) (tcs : list window) (seq : sequence)
    (i : nat) : Q :=
  match elapsed tm seq i, tcs !! i with
  | Some e, Some w => Qmax 0 (e - w.2)
  | _, _ => 0
  end.

(** The early penalty of position [i]: how far the elapsed time is
    before the lower bound of the window. *)
Definition early_penalty (tm : matrix) (tcs : list window) (seq : sequence)
    (i : nat) : Q :=
  match elapsed tm seq i, tcs !! i with
  | Some e, Some w => Qmax 0 (w.1 - e)
  | _, _ => 0
  end.

(** ** Slices and index ranges *)

(** The sum of the squares of the stop counts. *)
Definition sum_sq (lens : list nat) : nat := sum_list_with (λ n, n * n)%nat lens.

(** The index ranges [(lo, hi)] of the slices: the running offset
    [idx_so_far] of the loop and the offset plus [route_len * route_len]. *)
Fixpoint slice_bounds (idx_so_far : nat) (lens : list nat) : list (nat * nat) :=
  match lens with
  | [] => []
  | route_len :: lens' =>
      (idx_so_far, (idx_so_far + route_len * route_len)%nat)
        :: slice_bounds (idx_so_far + route_len * route_len) lens'
  end.

(** The entries of a matrix, row after row. *)
Definition flatten (m : matrix) : list Q := concat m.

(** The half-open range [(lo, hi)] contains the index [x]. *)
Definition in_range (x : nat) (r : nat * nat) : Prop := (r.1 ≤ x < r.2)%nat.

(** ** Numbers and weights *)

(** The mean of a list of numbers. *)
Definition mean (l : list Q) : Q := Qsum l / inject_Z (Z.of_nat (length l)).


(** The best loss after the mean epoch losses [ms], by the update rule
    of [fit]: from [1e10], a loss replaces the best one when it is
    strictly smaller. *)
Definition best_seen (ms : list Q) : Q :=
  foldl (λ best m, if Qlt_le_dec m best then m else best)
    initial_best_loss ms.


(** ** The batch pool *)

(** A finished task stores its outcome in the slot of its index. *)
Definition store_outcome {A B : Type} (f : A → option B) (xs : list A)
    (slots : list (option (option B))) (i : nat)
    : list (option (option B)) :=
  match xs !! i with
  | Some x => <[i := Some (f x)]> slots
  | None => slots
  end.

(** ** Routes, losses and runs *)

Section Vocabulary.

Context {StopId TimeDict Features : Type}.
Variable constrained_tsp :
  matrix → matrix → list window → nat → Z → sequence.
Variable score : list StopId → list StopId → TimeDict → Q.
Variable predictor : Model → list Features → list Q.
Context {OptState : Type}.
Variable optimizer_init : Model → Q → OptState.
Variable optimizer_step :
  OptState → Model → list Features → list (@RouteSample StopId TimeDict) →
  list RouteOutput → OptState * Model.

#[local] Abbreviation RouteSample := (@RouteSample StopId TimeDict).
#[local] Abbreviation RouteData := (@RouteData StopId TimeDict).
#[local] Abbreviation ExtCall := (@ExtCall StopId TimeDict).
#[local] Abbreviation DataLoader := (@DataLoader StopId TimeDict Features).
#[local] Abbreviation FitState := (@FitState OptState).
#[local] Abbreviation fit_epoch' :=
  (fit_epoch constrained_tsp score predictor optimizer_step).


(** The route function of the batch: [partial(compute_tsp_seq_for_route,
    lamb=lamb)], its log dropped. *)
Definition tsp_func (lamb : Q) (data : RouteData) : option RouteOutput :=
  (compute_tsp_seq_for_route constrained_tsp score data lamb).2.

(** The hinge of one route: [max(0, (demo_cost + lambda * demo_tv) -
    (pred_cost + lambda * pred_tv))], where [pred_cost] is the
    elementwise sum of the predicted sequence's cyclic indicator matrix
    times the route's cost matrix and [demo_cost] the same sum with the
    demonstrated indicator matrix. *)
Definition route_hinge (lam : Q) (out : RouteOutput) (theta : matrix)
    (data : RouteSample) : option Q :=
  pred_cost ← mul_sum (seq_binary_mat (out_pred_seq out)) theta;
  demo_cost ← mul_sum (binary_mat data) theta;
  Some (Qmax 0 ((demo_cost + lam * out_demo_tv out)
                - (pred_cost + lam * out_pred_tv out))).

(** The loss as the spec words it: the mean of the per-route hinges. *)
Definition irl_loss_spec (batch_output : list RouteOutput)
    (thetas_tensor : list matrix) (tsp_data : list RouteSample)
    (model : Model) : option Q :=
  hinges ← mapM (λ '(out, theta, data), route_hinge (lamb model) out theta data)
                (zip (zip batch_output thetas_tensor) tsp_data);
  Some (mean hinges).

(** [route_len] of every route of the batch. *)
Definition route_lens (tsp_data : list RouteSample) : list nat :=
  (λ data, length (travel_times data)) <$> tsp_data.

(** The values written under a tag, in order. *)
Definition scalars (tag : string) (events : list Event) : list Q :=
  omap (λ e, match e with
             | AddScalar t value _ => if decide (t = tag) then Some value else None
             | TorchSave _ _ => None
             end) events.

(** The model states written to files, with their paths, in order. *)
Definition saves (events : list Event) : list (Model * string) :=
  omap (λ e, match e with
             | TorchSave state_dict path => Some (state_dict, path)
             | AddScalar _ _ _ => None
             end) events.

(** The global steps of the scalars written under a tag, in order. *)
Definition global_steps (tag : string) (events : list Event) : list nat :=
  omap (λ e, match e with
             | AddScalar t _ global_step =>
                 if decide (t = tag) then Some global_step else None
             | TorchSave _ _ => None
             end) events.

(** The number of samples of every batch the loader yields. *)
Definition batch_sizes (dataloader : DataLoader) : list nat :=
  (λ b, length b.2) <$> loader_batches dataloader.


(** The state of the epoch loop of [fit] after [k] epochs. *)
Definition fit_upto (model : Model) (dataloader : DataLoader) (config : Config)
    (schedule : nat → nat → list nat) (k : nat) : option FitState :=
  for_in (range 0 k) (fit_epoch' dataloader config schedule)
    (mkFitState model (optimizer_init model (learning_rate config))
       initial_best_loss []).

End Vocabulary.

(** * A worked run

    Three copies of a three-stop route, a batch size of 2 (so the second
    batch holds one route), and collaborators that are simple enough to
    evaluate: the predictor returns the stacked features as costs, the
    solver answers with the demonstrated cycle walked backwards from the
    depot, the scorer is constant and the optimizer leaves the model
    as it is. *)
Module Worked.

Definition stop_id : Type := string.
Definition time_dict : Type := list (string * string * Q).

Definition solver (objective_matrix travel_times : matrix)
    (time_constraints : list window) (depot : nat) (lamb : Z) : sequence :=
  [depot; ((depot + 2) mod 3)%nat; ((depot + 1) mod 3)%nat].

Definition scorer (demo pred : list stop_id) (d : time_dict) : Q := 0.

Definition predict (model : Model) (nn_data : list (list Q)) : list Q :=
  concat nn_data.

Definition opt_init (model : Model) (lr : Q) : unit := tt.

Definition opt_step (opt : unit) (model : Model) (nn_data : list (list Q))
    (tsp_data : list (@RouteSample stop_id time_dict))
    (batch_output : list RouteOutput) : unit * Model :=
  (tt, model).

Definition times3 : matrix := [[0; 1; 1]; [1; 0; 1]; [1; 1; 0]].
Definition windows3 : list window := [(0, 10); (0, 10); (0, 10)].

Definition route3 : @RouteSample stop_id time_dict :=
  mkRouteSample times3 windows3 ["A"; "B"; "C"]%string [] [0; 1; 2]%nat
    (seq_binary_mat [0; 1; 2]%nat).

(** The features of a route: the cost 1 on the edge from stop 0 to
    stop 1, and 0 elsewhere. *)
Definition features3 : list Q := [0; 1; 0; 0; 0; 0; 0; 0; 0].

Definition model0 : Model := mkModel 1 [].

Definition loader : @DataLoader stop_id time_dict (list Q) :=
  mkDataLoader [(features3, route3); (features3, route3); (features3, route3)] 2.

Definition config : Config := mkConfig (1 # 1000) 2 1 "out" "run".

(** The second worker finishes first in the first step. *)
Definition schedule (epoch_idx d_idx : nat) : list nat :=
  match d_idx with
  | O => [1; 0]%nat
  | S _ => [0]%nat
  end.



(** A two-stop route, for a batch of routes of different sizes. *)
Definition route2 : @RouteSample stop_id time_dict :=
  mkRouteSample [[0; 1]; [1; 0]] [(0, 10); (0, 10)] ["D"; "E"]%string []
    [0; 1]%nat (seq_binary_mat [0; 1]%nat).

Definition flat13 : list Q := [1; 2; 3; 4; 5; 6; 7; 8; 9; 10; 11; 12; 13].

(** The cost matrix of [features3] and the record built from it. *)
Definition theta3 : matrix := [[0; 1; 0]; [0; 0; 0]; [0; 0; 0]].
Definition record3 : @RouteData stop_id time_dict :=
  batch_record theta3 route3.

(** The output of the solver's backward cycle on [route3]. *)
Definition output3 : RouteOutput := mkRouteOutput [0; 2; 1]%nat 0 0 0.

(** A batch output whose demonstrated sequence violates its windows by
    1 and whose predicted sequence does not, on a zero cost matrix. *)
Definition zero3 : matrix := [[0; 0; 0]; [0; 0; 0]; [0; 0; 0]].
Definition late_output3 : RouteOutput := mkRouteOutput [0; 2; 1]%nat 1 0 0.

End Worked.

(** ** Further instances

    A route whose demonstration is the cycle the worked solver answers
    with, windows that the demonstrated cycle of the worked route
    misses at both ends, and a loader over no routes at all. *)
Module Instances.

Definition reproduced3 : @RouteSample Worked.stop_id Worked.time_dict :=
  mkRouteSample Worked.times3 Worked.windows3 ["A"; "B"; "C"]%string []
    [0; 2; 1]%nat (seq_binary_mat [0; 2; 1]%nat).

(** Position 1 is reached at time 1, one unit before its window opens;
    position 2 is reached at time 2, one unit after its window closes. *)
Definition missed_windows3 : list window := [(0, 10); (2, 10); (0, 1)].

(** Costs on the edges of that cycle: 5, 3 and 2. *)
Definition costs3 : matrix := [[0; 0; 5]; [2; 0; 0]; [0; 3; 0]].

Definition empty_loader
    : @DataLoader Worked.stop_id Worked.time_dict (list Q) :=
  mkDataLoader [] 2.

(** Every worker finishes in the order of the tasks. *)
Definition in_order_schedule (epoch_idx d_idx : nat) : list nat :=
  match d_idx with
  | O => [0; 1]%nat
  | S _ => [0]%nat
  end.

End Instances.

(** * Properties *)

(** ** Loops *)

Lemma for_in_ext {A S} (xs : list A) (f g : A → S → option S) (s : S) :
  (∀ x s, x ∈ xs → f x s = g x s) → for_in xs f s = for_in xs g s.
Proof.
  revert s. induction xs as [|x xs IH]; intros s Hfg; simpl; [done|].
  rewrite Hfg by left. destruct (g x s) as [s'|]; simpl; [|done].
  apply IH. intros y t Hy. apply Hfg. by right.
Qed.

Lemma for_in_app {A S} (xs ys : list A) (f : A → S → option S) (s : S) :
  for_in (xs ++ ys) f s = s' ← for_in xs f s; for_in ys f s'.
Proof.
  revert s. induction xs as [|x xs IH]; intros s; simpl; [done|].
  destruct (f x s) as [s'|]; simpl; [apply IH|done].
Qed.

Lemma steps_from_pairs k seq : (steps_from k seq).*2 = consecutive_pairs seq.
Proof.
  revert k. induction seq as [|a seq IH]; intros k; [done|].
  destruct seq as [|b rest]; [done|].
  change (steps_from k (a :: b :: rest))
    with ((k, (a, b)) :: steps_from (S k) (b :: rest)).
  change (consecutive_pairs (a :: b :: rest))
    with ((a, b) :: consecutive_pairs (b :: rest)).
  rewrite fmap_cons, IH. done.
Qed.

Lemma length_steps_from k seq : length (steps_from k seq) = (length seq - 1)%nat.
Proof.
  revert k. induction seq as [|a seq IH]; intros k; [done|].
  destruct seq as [|b rest]; [done|].
  change (steps_from k (a :: b :: rest))
    with ((k, (a, b)) :: steps_from (S k) (b :: rest)).
  cbn [length]. rewrite IH. simpl. lia.
Qed.

(** A loop over [range(1, len(seq))] that reads [seq[idx - 1]] and
    [seq[idx]] is a loop over the consecutive pairs. *)
Lemma for_in_range_steps {S} (body : nat → nat → nat → S → option S)
    (pre seq : sequence) (s : S) :
  for_in (List.seq (Datatypes.S (length pre)) (length seq - 1))
    (λ idx s, a ← (pre ++ seq) !! (idx - 1)%nat;
              b ← (pre ++ seq) !! idx; body idx a b s) s
  = for_in (steps_from (Datatypes.S (length pre)) seq)
      (λ '(idx, (a, b)) s, body idx a b s) s.
Proof.
  revert pre s. induction seq as [|a seq IH]; intros pre s; [done|].
  destruct seq as [|b rest]; [done|].
  change (steps_from (Datatypes.S (length pre)) (a :: b :: rest))
    with ((Datatypes.S (length pre), (a, b))
            :: steps_from (Datatypes.S (Datatypes.S (length pre))) (b :: rest)).
  replace (length (a :: b :: rest) - 1)%nat
    with (Datatypes.S (length (b :: rest) - 1)) by (simpl; lia).
  cbn [List.seq for_in].
  replace (Datatypes.S (length pre) - 1)%nat with (length pre) by lia.
  rewrite (list_lookup_middle pre (b :: rest) a (length pre)) by done.
  cbn [mbind option_bind].
  replace (pre ++ a :: b :: rest) with ((pre ++ [a]) ++ b :: rest)
    by (by rewrite <- app_assoc).
  rewrite (list_lookup_middle (pre ++ [a]) rest b (Datatypes.S (length pre)))
    by (rewrite length_app; simpl; lia).
  cbn [mbind option_bind].
  destruct (body (Datatypes.S (length pre)) a b s) as [s'|]; [|done].
  cbn [mbind option_bind].
  specialize (IH (pre ++ [a]) s').
  rewrite length_app in IH. cbn [length] in IH.
  replace (length pre + 1)%nat with (Datatypes.S (length pre)) in IH by lia.
  apply IH.
Qed.

Lemma for_in_range_steps_0 {S} (body : nat → nat → nat → S → option S)
    (seq : sequence) (s : S) :
  for_in (range 1 (length seq))
    (λ idx s, a ← seq !! (idx - 1)%nat; b ← seq !! idx; body idx a b s) s
  = for_in (steps_from 1 seq) (λ '(idx, (a, b)) s, body idx a b s) s.
Proof. apply (for_in_range_steps body [] seq s). Qed.

Lemma for_in_fmap {A B S} (g : A → B) (xs : list A)
    (body : B → S → option S) (s : S) :
  for_in (g <$> xs) body s = for_in xs (λ x, body (g x)) s.
Proof.
  revert s. induction xs as [|x xs IH]; intros s; simpl; [done|].
  destruct (body (g x) s); simpl; [apply IH|done].
Qed.

(** ** Edge sums *)

Lemma mapM_cons {A B} (f : A → option B) (x : A) (l : list A) :
  mapM f (x :: l) = y ← f x; k ← mapM f l; Some (y :: k).
Proof. done. Qed.

Lemma mapM_zip_step (planes : list matrix) (accs : list Q) (a b : nat)
    (h : matrix → Q → option Q) :
  length accs = length planes →
  mapM (λ '(plane, acc), t ← mat_get plane a b; h plane (acc + t))
       (zip planes accs)
  = f ← feature_column planes a b;
    mapM (λ '(plane, acc), h plane acc) (zip planes (vec_add accs f)).
Proof.
  revert accs. induction planes as [|p planes IH]; intros [|acc accs] Hlen;
    try discriminate Hlen; [done|].
  injection Hlen as Hlen.
  change (zip (p :: planes) (acc :: accs)) with ((p, acc) :: zip planes accs).
  unfold feature_column in *. rewrite !mapM_cons, (IH accs) by done.
  destruct (mat_get p a b) as [t|]; cbn [mbind option_bind]; [|done].
  destruct (mapM (λ plane, mat_get plane a b) planes) as [f|];
    cbn [mbind option_bind].
  - done.
  - by destruct (h p (acc + t)).
Qed.

Lemma length_vec_add_column planes accs a b f :
  length accs = length planes →
  feature_column planes a b = Some f →
  length (vec_add accs f) = length planes.
Proof.
  intros Hlen Hf. apply length_mapM in Hf. unfold vec_add.
  rewrite length_zip_with. lia.
Qed.

Lemma for_in_cons {A S} (x : A) (xs : list A) (f : A → S → option S) (s : S) :
  for_in (x :: xs) f s = s' ← f x s; for_in xs f s'.
Proof. done. Qed.

Lemma edge_sum_cons m a b es acc :
  edge_sum m ((a, b) :: es) acc = t ← mat_get m a b; edge_sum m es (acc + t).
Proof. unfold edge_sum. rewrite for_in_cons. by destruct (mat_get m a b). Qed.

Lemma link_loop_spec tm lf es tc0 fc0 :
  length fc0 = length lf →
  for_in es (link_loop_body tm lf) (tc0, fc0)
  = tc ← edge_sum tm es tc0;
    fc ← mapM (λ '(plane, acc), edge_sum plane es acc) (zip lf fc0);
    Some (tc, fc).
Proof.
  revert tc0 fc0. induction es as [|[a b] es IH]; intros tc0 fc0 Hlen.
  - simpl. replace (mapM _ (zip lf fc0)) with (Some fc0); [done|].
    symmetry. apply mapM_Some. clear tc0.
    revert fc0 Hlen. induction lf as [|p lf IHlf]; intros [|c fc0] Hlen;
      simplify_eq/=; constructor; auto.
  - rewrite for_in_cons, edge_sum_cons.
    change (link_loop_body tm lf (a, b) (tc0, fc0))
      with (t ← mat_get tm a b; f ← feature_column lf a b;
            Some (tc0 + t, vec_add fc0 f)).
    destruct (mat_get tm a b) as [t|]; cbn [mbind option_bind]; [|done].
    rewrite (mapM_ext _ (λ '(plane, acc),
               t ← mat_get plane a b; edge_sum plane es (acc + t)))
      by (intros [??]; apply edge_sum_cons).
    rewrite (mapM_zip_step lf fc0 a b (λ plane, edge_sum plane es)) by done.
    destruct (feature_column lf a b) as [f|] eqn:Hf; cbn [mbind option_bind].
    + apply IH. by eapply length_vec_add_column.
    + by destruct (edge_sum tm es (tc0 + t)).
Qed.

Lemma mapM_zip_replicate {B} (planes : list matrix) (h : matrix → Q → option B)
    (q : Q) :
  mapM (λ '(plane, acc), h plane acc) (zip planes (replicate (length planes) q))
  = mapM (λ plane, h plane q) planes.
Proof.
  induction planes as [|p planes IH]; simpl; [done|]. by rewrite IH.
Qed.

(** [compute_link_cost_seq] adds the entries at the cyclic edges. *)
Lemma compute_link_cost_seq_spec tm lf seq :
  compute_link_cost_seq tm lf seq = link_cost_spec tm lf seq.
Proof.
  unfold compute_link_cost_seq.
  rewrite (for_in_ext _ _ (λ idx st,
             a ← seq !! (idx - 1)%nat; b ← seq !! idx;
             link_loop_body tm lf (a, b) st)) by (by intros ? [??] _).
  rewrite (for_in_range_steps_0 (λ _ a b, link_loop_body tm lf (a, b))).
  rewrite (for_in_ext _ _ (λ x, link_loop_body tm lf x.2))
    by (by intros [? [??]] ? _).
  rewrite <- (for_in_fmap snd), steps_from_pairs.
  destruct seq as [|s0 seq']; [done|].
  set (seq := s0 :: seq'). unfold link_cost_spec. fold seq.
  destruct (last seq) as [l|] eqn:Hlast;
    [|by apply last_None in Hlast].
  transitivity (for_in (cyclic_pairs seq) (link_loop_body tm lf)
                  (0, replicate (length lf) 0)).
  - unfold cyclic_pairs, closing_pair. rewrite Hlast. cbn [seq head].
    rewrite for_in_app.
    destruct (for_in (consecutive_pairs seq) _ _) as [[tc fc]|];
      cbn [mbind option_bind]; [|done].
    subst seq. cbn [lookup list_lookup for_in]. unfold link_loop_body.
    cbn [fst snd mbind option_bind].
    destruct (mat_get tm l s0); cbn [mbind option_bind]; [|done].
    by destruct (feature_column lf l s0).
  - rewrite link_loop_spec by (by rewrite length_replicate).
    by rewrite (mapM_zip_replicate lf (λ plane, edge_sum plane _)).
Qed.

(** ** The cyclic edges under rotation and reversal *)

Lemma consecutive_pairs_cons a b rest :
  consecutive_pairs (a :: b :: rest) = (a, b) :: consecutive_pairs (b :: rest).
Proof. done. Qed.

Lemma consecutive_pairs_app l1 l2 :
  consecutive_pairs (l1 ++ l2)
  = consecutive_pairs l1 ++ junction l1 l2 ++ consecutive_pairs l2.
Proof.
  induction l1 as [|a l1 IH]; [done|].
  destruct l1 as [|a' l1].
  - destruct l2 as [|b l2]; done.
  - change ((a :: a' :: l1) ++ l2) with (a :: a' :: (l1 ++ l2)).
    rewrite !consecutive_pairs_cons.
    change (a' :: l1 ++ l2) with ((a' :: l1) ++ l2). rewrite IH.
    unfold junction. by rewrite last_cons_cons.
Qed.

Lemma length_consecutive_pairs seq :
  length (consecutive_pairs seq) = (length seq - 1)%nat.
Proof. by rewrite <- (steps_from_pairs 1), length_fmap, length_steps_from. Qed.








(** ** Sums over permuted edges *)











(** ** Time-window violation *)

Lemma compute_time_violation_seq_steps tm tcs seq :
  compute_time_violation_seq tm tcs seq
  = st ← for_in (steps_from 1 seq) (violation_body tm tcs) (0, 0, 0);
    Some (st.2 + st.1.2).
Proof.
  unfold compute_time_violation_seq.
  rewrite (for_in_ext _ _ (λ idx st,
             a ← seq !! (idx - 1)%nat; b ← seq !! idx;
             violation_body tm tcs (idx, (a, b)) st)).
  2:{ intros idx [[time vd] vu] _. unfold violation_body.
      destruct (seq !! (idx - 1)%nat) as [a|]; [|done].
      destruct (seq !! idx) as [b|]; done. }
  rewrite (for_in_range_steps_0 (λ idx a b, violation_body tm tcs (idx, (a, b)))).
  rewrite (for_in_ext _ _ (violation_body tm tcs)) by (by intros [? [??]] ? _).
  by destruct (for_in _ _ _) as [[[time vd] vu]|].
Qed.

Lemma elem_of_steps_from k seq idx a b :
  (idx, (a, b)) ∈ steps_from k seq →
  (k ≤ idx < k + (length seq - 1))%nat ∧ (a, b) ∈ consecutive_pairs seq.
Proof.
  revert k. induction seq as [|x seq IH]; intros k Hin.
  { by apply elem_of_nil in Hin. }
  destruct seq as [|y rest]; [by apply elem_of_nil in Hin|].
  change (steps_from k (x :: y :: rest))
    with ((k, (x, y)) :: steps_from (S k) (y :: rest)) in Hin.
  rewrite consecutive_pairs_cons.
  apply elem_of_cons in Hin as [Heq|Hin].
  - simplify_eq. split; [simpl; lia|by left].
  - apply IH in Hin as [Hidx Hab]. split; [simpl in *; lia|by right].
Qed.

(** C10.  [compute_time_violation_seq] reads the time constraints only at
    the positions [1 .. N-1] and the time matrix only at the consecutive
    pairs of the sequence: two constraint lists that agree at those
    positions, and two time matrices that agree at those pairs, give the
    same result (the same number, or the same error).  The window of
    position 0 and the entry of the closing edge are not read. *)
Theorem compute_time_violation_seq_reads (tm tm' : matrix)
    (tcs tcs' : list window) (seq : sequence) :
  (∀ i, (1 ≤ i < length seq)%nat → tcs !! i = tcs' !! i) →
  (∀ a b, (a, b) ∈ consecutive_pairs seq → mat_get tm a b = mat_get tm' a b) →
  compute_time_violation_seq tm tcs seq = compute_time_violation_seq tm' tcs' seq.
Proof.
  intros Htcs Htm. rewrite !compute_time_violation_seq_steps.
  rewrite (for_in_ext _ (violation_body tm tcs) (violation_body tm' tcs')); [done|].
  intros [idx [a b]] [[time vd] vu] Hin.
  apply elem_of_steps_from in Hin as [Hidx Hab].
  unfold violation_body, window in *. cbn beta iota.
  rewrite (Htm a b Hab), (Htcs idx) by lia. done.
Qed.

Lemma Qmax_0_nonneg x : 0 <= Qmax 0 x.
Proof. destruct (Q.max_spec 0 x) as [[? ->]|[? ->]]; lra. Qed.

Lemma Qmax_0_zero x : Qmax 0 x == 0 ↔ x <= 0.
Proof. destruct (Q.max_spec 0 x) as [[? ->]|[? ->]]; split; lra. Qed.

Lemma Qmax_0_mono x y : x <= y → Qmax 0 x <= Qmax 0 y.
Proof.
  intros Hxy.
  destruct (Q.max_spec 0 x) as [[? ->]|[? ->]],
           (Q.max_spec 0 y) as [[? ->]|[? ->]]; lra.
Qed.

Lemma steps_from_snoc k seq x :
  steps_from k (seq ++ [x])
  = steps_from k seq
    ++ match last seq with
       | Some a => [((k + length seq - 1)%nat, (a, x))]
       | None => []
       end.
Proof.
  revert k. induction seq as [|a seq IH]; intros k; [done|].
  destruct seq as [|b rest].
  - simpl. do 3 f_equal. lia.
  - change (steps_from k ((a :: b :: rest) ++ [x]))
      with ((k, (a, b)) :: steps_from (S k) ((b :: rest) ++ [x])).
    change (steps_from k (a :: b :: rest))
      with ((k, (a, b)) :: steps_from (S k) (b :: rest)).
    rewrite IH, last_cons_cons. cbn [app length]. do 2 f_equal.
    destruct (last (b :: rest)); [|done]. do 2 f_equal. lia.
Qed.

Lemma consecutive_pairs_snoc seq x :
  consecutive_pairs (seq ++ [x])
  = consecutive_pairs seq
    ++ match last seq with Some a => [(a, x)] | None => [] end.
Proof.
  rewrite consecutive_pairs_app. unfold junction. cbn [head].
  by rewrite app_nil_r.
Qed.

Lemma edge_sum_app m es es' acc :
  edge_sum m (es ++ es') acc = acc' ← edge_sum m es acc; edge_sum m es' acc'.
Proof. apply for_in_app. Qed.

Lemma elapsed_snoc_lt tm seq x i :
  (i < length seq)%nat → elapsed tm (seq ++ [x]) i = elapsed tm seq i.
Proof.
  intros Hi. unfold elapsed. rewrite consecutive_pairs_snoc.
  rewrite take_app_le; [done|]. rewrite length_consecutive_pairs. lia.
Qed.

Lemma elapsed_snoc_last tm seq a x :
  last seq = Some a →
  elapsed tm (seq ++ [x]) (length seq)
  = time ← edge_sum tm (consecutive_pairs seq) 0;
    t ← mat_get tm a x; Some (time + t).
Proof.
  intros Hlast. unfold elapsed. rewrite consecutive_pairs_snoc, Hlast.
  rewrite take_ge.
  2:{ rewrite length_app, length_consecutive_pairs.
      destruct seq; [done|]. simpl. lia. }
  rewrite edge_sum_app.
  destruct (edge_sum tm (consecutive_pairs seq) 0) as [time|]; [|done].
  cbn [mbind option_bind]. by rewrite edge_sum_cons.
Qed.

Lemma within_window_snoc_lt tm tcs seq x i :
  (i < length seq)%nat →
  within_window tm tcs (seq ++ [x]) i ↔ within_window tm tcs seq i.
Proof. intros Hi. unfold within_window. by rewrite elapsed_snoc_lt. Qed.

(** The state of the loop after the last position. *)
Lemma violation_loop_spec tm tcs seq :
  match for_in (steps_from 1 seq) (violation_body tm tcs) (0, 0, 0) with
  | Some (time, vd, vu) =>
      edge_sum tm (consecutive_pairs seq) 0 = Some time
      ∧ 0 <= vd ∧ 0 <= vu
      ∧ (vu + vd == 0 ↔
         ∀ i, (1 ≤ i < length seq)%nat → within_window tm tcs seq i)
  | None =>
      ∃ i, (1 ≤ i < length seq)%nat ∧ ¬ within_window tm tcs seq i
  end.
Proof.
  induction seq as [|x seq IH] using rev_ind.
  { simpl. repeat split; try lra. intros i Hi. simpl in Hi. lia. }
  rewrite steps_from_snoc, for_in_app.
  destruct (last seq) as [a|] eqn:Hlast.
  2:{ apply last_None in Hlast as ->. simpl. repeat split; try lra.
      intros i Hi. simpl in Hi. lia. }
  assert (Hne : (1 ≤ length seq)%nat).
  { destruct seq; [done|simpl; lia]. }
  replace (1 + length seq - 1)%nat with (length seq) by lia.
  rewrite length_app. cbn [length].
  destruct (for_in (steps_from 1 seq) _ _) as [[[time vd] vu]|];
    cbn [mbind option_bind].
  2:{ destruct IH as (i & Hi & Hout). exists i. split; [lia|].
      by rewrite within_window_snoc_lt by lia. }
  destruct IH as (Htime & Hvd & Hvu & IH).
  cbn [for_in violation_body].
  pose proof (elapsed_snoc_last tm seq a x Hlast) as Hel.
  rewrite Htime in Hel. cbn [mbind option_bind] in Hel.
  destruct (mat_get tm a x) as [t|] eqn:Ht; cbn [mbind option_bind] in *.
  2:{ exists (length seq). split; [lia|].
      intros (e & w & He & _). congruence. }
  destruct (tcs !! length seq) as [w|] eqn:Hw; cbn [mbind option_bind].
  2:{ exists (length seq). split; [lia|].
      intros (e & w & _ & Hw' & _). unfold window in *. congruence. }
  pose proof (Qmax_0_nonneg (w.1 - (time + t))) as Hd.
  pose proof (Qmax_0_nonneg (time + t - w.2)) as Hu.
  split; [|split; [lra|split; [lra|]]].
  { rewrite consecutive_pairs_snoc, Hlast, edge_sum_app, Htime.
    cbn [mbind option_bind]. by rewrite edge_sum_cons, Ht. }
  split.
  - intros Hzero i Hi.
    destruct (decide (i = length seq)) as [->|Hneq].
    + exists (time + t), w. repeat split; [done|done| |].
      * assert (Qmax 0 (w.1 - (time + t)) == 0) as Hz by lra.
        apply Qmax_0_zero in Hz. lra.
      * assert (Qmax 0 (time + t - w.2) == 0) as Hz by lra.
        apply Qmax_0_zero in Hz. lra.
    + apply within_window_snoc_lt; [lia|]. apply IH; [lra|lia].
  - intros Hall.
    assert (vu + vd == 0) as Hprev.
    { apply IH. intros i Hi. apply (within_window_snoc_lt tm tcs seq x); [lia|].
      apply Hall. lia. }
    destruct (Hall (length seq)) as (e & w' & He & Hw' & Hlo & Hhi); [lia|].
    unfold window in *. rewrite Hw in Hw'. injection Hw' as <-.
    rewrite Hel in He. injection He as <-.
    assert (Qmax 0 (w.1 - (time + t)) == 0) as Hz1
      by (apply Qmax_0_zero; lra).
    assert (Qmax 0 (time + t - w.2) == 0) as Hz2
      by (apply Qmax_0_zero; lra).
    lra.
Qed.

Lemma violation_loop_mono tm tcs tcs' sts time vd vu vd' vu' :
  tighter tcs tcs' → vd <= vd' → vu <= vu' →
  match for_in sts (violation_body tm tcs) (time, vd, vu),
        for_in sts (violation_body tm tcs') (time, vd', vu') with
  | Some (_, d1, u1), Some (_, d2, u2) => d1 <= d2 ∧ u1 <= u2
  | None, None => True
  | _, _ => False
  end.
Proof.
  intros Htight. revert time vd vu vd' vu'.
  induction sts as [|[idx [a b]] sts IH]; intros time vd vu vd' vu' Hd Hu.
  { simpl. done. }
  rewrite !for_in_cons. cbn [violation_body].
  destruct (mat_get tm a b) as [t|]; cbn [mbind option_bind]; [|done].
  pose proof (proj1 (Forall2_lookup _ _ _) Htight idx) as Hw.
  unfold window in *.
  destruct Hw as [w w' [Hlo Hhi]|]; cbn [mbind option_bind]; [|done].
  apply IH.
  - pose proof (Qmax_0_mono (w.1 - (time + t)) (w'.1 - (time + t))). lra.
  - pose proof (Qmax_0_mono (time + t - w.2) (time + t - w'.2)). lra.
Qed.

(** C2, as stated, fails at position 0: the elapsed time 0 is outside the
    window [(5, 10)] of the first position, and the violation is 0. *)
Lemma compute_time_violation_seq_ignores_position_0 :
  ∃ v, compute_time_violation_seq two_stop_times late_start_windows [0; 1]%nat
       = Some v
       ∧ v == 0
       ∧ ¬ (∀ i, (i < length [0; 1]%nat)%nat →
                 within_window two_stop_times late_start_windows [0; 1]%nat i).
Proof.
  eexists. split; [reflexivity|]. split; [reflexivity|].
  intros Hall. destruct (Hall 0%nat) as (e & w & He & Hw & Hlo & Hhi).
  { simpl. lia. }
  injection He as <-. injection Hw as <-. simpl in Hlo. lra.
Qed.

(** C2 (amended to the positions the loop visits).  The violation is 0
    whenever the elapsed time at every position [1 .. N-1] lies within
    that position's window; a violation that is returned is never
    negative, is 0 exactly in that case and is strictly positive
    otherwise; and it does not decrease when the windows are tightened. *)
Theorem compute_time_violation_seq_windows (tm : matrix) (tcs : list window)
    (seq : sequence) :
  ((∀ i, (1 ≤ i < length seq)%nat → within_window tm tcs seq i) →
   ∃ v, compute_time_violation_seq tm tcs seq = Some v ∧ v == 0)
  ∧ (∀ v, compute_time_violation_seq tm tcs seq = Some v →
       0 <= v
       ∧ (v == 0 ↔
          ∀ i, (1 ≤ i < length seq)%nat → within_window tm tcs seq i)
       ∧ (¬ (∀ i, (1 ≤ i < length seq)%nat → within_window tm tcs seq i) →
          0 < v))
  ∧ (∀ tcs' v, compute_time_violation_seq tm tcs seq = Some v →
       tighter tcs tcs' →
       ∃ v', compute_time_violation_seq tm tcs' seq = Some v' ∧ v <= v').
Proof.
  rewrite compute_time_violation_seq_steps.
  pose proof (violation_loop_spec tm tcs seq) as Hspec.
  split; [|split].
  - intros Hall.
    destruct (for_in (steps_from 1 seq) _ _) as [[[time vd] vu]|].
    + destruct Hspec as (_ & _ & _ & Hiff). eexists. split; [done|].
      cbn [fst snd]. by apply Hiff.
    + destruct Hspec as (i & Hi & Hout). destruct Hout. by apply Hall.
  - intros v Hv.
    destruct (for_in (steps_from 1 seq) _ _) as [[[time vd] vu]|];
      [|done].
    destruct Hspec as (_ & Hvd & Hvu & Hiff).
    cbn [mbind option_bind fst snd] in Hv. injection Hv as <-.
    split; [lra|]. split; [done|]. intros Hnot.
    destruct (Qlt_le_dec 0 (vu + vd)) as [|Hle]; [done|].
    destruct Hnot. apply Hiff. lra.
  - intros tcs' v Hv Htight. rewrite compute_time_violation_seq_steps.
    pose proof (violation_loop_mono tm tcs tcs' (steps_from 1 seq)
                  0 0 0 0 0 Htight) as Hmono.
    destruct (for_in (steps_from 1 seq) (violation_body tm tcs) _)
      as [[[time vd] vu]|]; [|done].
    cbn [mbind option_bind fst snd] in Hv. injection Hv as <-.
    destruct (for_in (steps_from 1 seq) (violation_body tm tcs') _)
      as [[[time' vd'] vu']|].
    + destruct Hmono as [Hd Hu]; [lra|lra|]. eexists. split; [done|].
      cbn [fst snd]. lra.
    + destruct Hmono; lra.
Qed.

(** ** Margin loss *)

Lemma for_in_range_lookup {A St} (body : A → St → option St) (pre l : list A)
    (s : St) :
  for_in (List.seq (length pre) (length l))
    (λ i s, x ← (pre ++ l) !! i; body x s) s
  = for_in l body s.
Proof.
  revert pre s. induction l as [|x l IH]; intros pre s; [done|].
  cbn [length List.seq]. rewrite !for_in_cons.
  rewrite (list_lookup_middle pre l x (length pre)) by done.
  cbn [mbind option_bind]. destruct (body x s) as [s'|]; [|done].
  cbn [mbind option_bind].
  specialize (IH (pre ++ [x]) s'). rewrite length_app in IH. cbn [length] in IH.
  replace (length pre + 1)%nat with (S (length pre)) in IH by lia.
  rewrite <- app_assoc in IH. apply IH.
Qed.

Lemma for_in_range_lookup_0 {A St} (body : A → St → option St) (l : list A) (s : St) :
  for_in (range 0 (length l)) (λ i s, x ← l !! i; body x s) s = for_in l body s.
Proof.
  unfold range. rewrite Nat.sub_0_r. apply (for_in_range_lookup body [] l s).
Qed.

Lemma for_in_mapM_sum {A} (f : A → option Q) (l : list A) (acc : Q) :
  for_in l (λ x acc, h ← f x; Some (acc + h)) acc
  = hs ← mapM f l; Some (foldl Qplus acc hs).
Proof.
  revert acc. induction l as [|x l IH]; intros acc; [done|].
  rewrite for_in_cons, mapM_cons.
  destruct (f x) as [h|]; cbn [mbind option_bind]; [|done].
  rewrite IH. by destruct (mapM f l).
Qed.

Lemma foldl_Qplus_nonneg (l : list Q) (acc : Q) :
  0 <= acc → Forall (λ h, 0 <= h) l → 0 <= foldl Qplus acc l.
Proof.
  intros Hacc Hl. revert acc Hacc.
  induction Hl as [|h l Hh _ IH]; intros acc Hacc; [done|].
  simpl. apply IH. lra.
Qed.

Lemma Qmax_0_le x : x <= 0 → Qmax 0 x = 0.
Proof.
  intros Hx. unfold Qmax, GenericMinMax.gmax.
  destruct (0 ?= x) eqn:Hc; try done.
  apply Qlt_alt in Hc. lra.
Qed.

Lemma Qdiv_nat_nonneg (x : Q) (n : nat) :
  0 <= x → 0 <= x / inject_Z (Z.of_nat (S n)).
Proof.
  intros Hx. apply Qle_shift_div_l; [|lra].
  change 0 with (inject_Z 0). rewrite <- Zlt_Qlt. lia.
Qed.

Section Loss.

Context {StopId TimeDict : Type}.
#[local] Abbreviation RouteSample := (@RouteSample StopId TimeDict).

Lemma route_hinge_nonneg lam out theta (data : RouteSample) h :
  route_hinge lam out theta data = Some h → 0 <= h.
Proof.
  unfold route_hinge. intros Hh.
  destruct (mul_sum (seq_binary_mat _) theta) as [pc|];
    cbn [mbind option_bind] in Hh; [|done].
  destruct (mul_sum (binary_mat data) theta) as [dc|];
    cbn [mbind option_bind] in Hh; [|done].
  injection Hh as <-. apply Qmax_0_nonneg.
Qed.

Lemma irl_loss_loop (batch_output : list RouteOutput)
    (thetas_tensor : list matrix) (tsp_data : list RouteSample)
    (model : Model) :
  length thetas_tensor = length batch_output →
  length tsp_data = length batch_output →
  irl_loss batch_output thetas_tensor tsp_data model
  = hinges ← mapM (λ '(out, theta, data),
                     route_hinge (lamb model) out theta data)
                  (zip (zip batch_output thetas_tensor) tsp_data);
    match length batch_output with
    | O => None
    | S _ => Some (Qsum hinges / inject_Z (Z.of_nat (length batch_output)))
    end.
Proof.
  intros Hth Htd. unfold irl_loss.
  set (rows := zip (zip batch_output thetas_tensor) tsp_data).
  assert (Hlen : length rows = length batch_output).
  { unfold rows. rewrite !length_zip_with. lia. }
  rewrite (for_in_ext _ _ (λ i loss,
             x ← rows !! i;
             (λ '(out, theta, data) loss,
                h ← route_hinge (lamb model) out theta data;
                Some (loss + h)) x loss)).
  2:{ intros i loss _. unfold rows. rewrite !lookup_zip_with.
      destruct (batch_output !! i) as [out|]; [|done].
      cbn [mbind option_bind].
      destruct (thetas_tensor !! i) as [theta|]; [|done].
      cbn [mbind option_bind]. unfold route_hinge, relu.
      destruct (tsp_data !! i) as [data|]; cbn [mbind option_bind].
      2:{ by destruct (mul_sum (seq_binary_mat (out_pred_seq out)) theta). }
      destruct (mul_sum (seq_binary_mat (out_pred_seq out)) theta) as [pc|];
        cbn [mbind option_bind]; [|done].
      by destruct (mul_sum (binary_mat data) theta). }
  rewrite <- Hlen, for_in_range_lookup_0.
  rewrite (for_in_ext _ _ (λ x loss,
             h ← (λ '(out, theta, data),
                    route_hinge (lamb model) out theta data) x;
             Some (loss + h))) by (by intros [[??]?] ? _).
  rewrite for_in_mapM_sum. by destruct (mapM _ rows).
Qed.

(** C1.  For a non-empty batch (with one cost matrix and one sample per
    route), the loss is the mean over the routes of the hinge
    [max(0, (demo_cost + lambda * demo_tv) - (pred_cost + lambda *
    pred_tv))]; a loss that is returned is never negative; and the hinge
    of a route is exactly 0 when the demonstrated side is at most the
    predicted side. *)
Theorem irl_loss_mean_hinge (batch_output : list RouteOutput)
    (thetas_tensor : list matrix) (tsp_data : list RouteSample)
    (model : Model) :
  batch_output ≠ [] →
  length thetas_tensor = length batch_output →
  length tsp_data = length batch_output →
  irl_loss batch_output thetas_tensor tsp_data model
    = irl_loss_spec batch_output thetas_tensor tsp_data model
  ∧ (∀ v, irl_loss batch_output thetas_tensor tsp_data model = Some v →
          0 <= v)
  ∧ (∀ i out theta data pred_cost demo_cost,
       batch_output !! i = Some out →
       thetas_tensor !! i = Some theta →
       tsp_data !! i = Some data →
       mul_sum (seq_binary_mat (out_pred_seq out)) theta = Some pred_cost →
       mul_sum (binary_mat data) theta = Some demo_cost →
       demo_cost + lamb model * out_demo_tv out
         <= pred_cost + lamb model * out_pred_tv out →
       route_hinge (lamb model) out theta data = Some 0).
Proof.
  intros Hne Hth Htd. rewrite irl_loss_loop by done. unfold irl_loss_spec.
  set (f := λ '(out, theta, data), route_hinge (lamb model) out theta data).
  assert (Hlen : ∀ hs, mapM f (zip (zip batch_output thetas_tensor) tsp_data)
                        = Some hs → length hs = length batch_output).
  { intros hs Hhs. apply length_mapM in Hhs. rewrite <- Hhs.
    rewrite !length_zip_with. lia. }
  split; [|split].
  - destruct (mapM f _) as [hs|] eqn:Hhs; [|done].
    cbn [mbind option_bind]. unfold mean. rewrite (Hlen hs eq_refl).
    by destruct batch_output.
  - intros v Hv. destruct (mapM f _) as [hs|] eqn:Hhs; [|done].
    cbn [mbind option_bind] in Hv.
    destruct (length batch_output) as [|n]; [done|]. injection Hv as <-.
    apply Qdiv_nat_nonneg, foldl_Qplus_nonneg; [lra|].
    apply mapM_Some_1 in Hhs. clear Hlen.
    induction Hhs as [|[[out theta] data] h rows hs Hh _ IH];
      constructor; [|done].
    by eapply route_hinge_nonneg.
  - intros i out theta data pc dc _ _ _ Hpc Hdc Hle. unfold route_hinge.
    rewrite Hpc, Hdc. cbn [mbind option_bind]. f_equal.
    apply Qmax_0_le. lra.
Qed.

(** C4 (amended).  The loss is a function of the cost matrices, of
    [lamb], of the predicted sequences and the two violations of the
    batch output, and of the demonstrated indicator matrices: it does not
    depend on the network parameters of the model in any other way, nor
    on the scores, nor on the other fields of the samples. *)
Theorem irl_loss_depends_on (m1 m2 : Model)
    (batch_output batch_output' : list RouteOutput)
    (thetas_tensor : list matrix) (tsp_data tsp_data' : list RouteSample) :
  lamb m1 = lamb m2 →
  Forall2 (λ o o', out_pred_seq o = out_pred_seq o'
                   ∧ out_demo_tv o = out_demo_tv o'
                   ∧ out_pred_tv o = out_pred_tv o')
    batch_output batch_output' →
  Forall2 (λ d d', binary_mat d = binary_mat d') tsp_data tsp_data' →
  irl_loss batch_output thetas_tensor tsp_data m1
  = irl_loss batch_output' thetas_tensor tsp_data' m2.
Proof.
  intros Hlamb Hout Hdata. unfold irl_loss.
  rewrite <- (Forall2_length _ _ _ Hout), <- Hlamb.
  erewrite for_in_ext; [reflexivity|].
  intros i loss _. cbn beta.
  destruct (proj1 (Forall2_lookup _ _ _) Hout i) as [o o' (Hs & Hd & Hp)|];
    [|done].
  cbn [mbind option_bind]. rewrite Hs, Hd, Hp.
  destruct (thetas_tensor !! i) as [theta|]; [|done].
  cbn [mbind option_bind].
  destruct (mul_sum (seq_binary_mat (out_pred_seq o')) theta); [|done].
  cbn [mbind option_bind].
  destruct (proj1 (Forall2_lookup _ _ _) Hdata i) as [d d' Hb|]; [|done].
  cbn [mbind option_bind]. by rewrite Hb.
Qed.

End Loss.

(** ** Slicing the flat predictor output *)

Lemma length_rows_of rows cols t : length (rows_of rows cols t) = rows.
Proof.
  revert t. induction rows as [|rows IH]; intros t; [done|].
  simpl. by rewrite IH.
Qed.

Lemma rows_of_row_lengths rows cols t :
  length t = (rows * cols)%nat →
  Forall (λ row, length row = cols) (rows_of rows cols t).
Proof.
  revert t. induction rows as [|rows IH]; intros t Hlen; [constructor|].
  simpl. constructor.
  - rewrite length_take. lia.
  - apply IH. rewrite length_drop. lia.
Qed.

Lemma concat_rows_of rows cols t :
  length t = (rows * cols)%nat → concat (rows_of rows cols t) = t.
Proof.
  revert t. induction rows as [|rows IH]; intros t Hlen.
  - by destruct t.
  - simpl. rewrite IH by (rewrite length_drop; lia). apply take_drop.
Qed.

Lemma length_slice {A} lo hi (t : list A) :
  (lo ≤ hi ≤ length t)%nat → length (slice lo hi t) = (hi - lo)%nat.
Proof. intros H. unfold slice. rewrite length_take, length_drop. lia. Qed.

Lemma slice_app_next {A} lo mid hi (t : list A) :
  (lo ≤ mid ≤ hi)%nat → slice lo mid t ++ slice mid hi t = slice lo hi t.
Proof.
  intros H. unfold slice.
  replace (hi - lo)%nat with ((mid - lo) + (hi - mid))%nat by lia.
  rewrite <- take_take_drop, drop_drop. do 3 f_equal. lia.
Qed.

Lemma reshape_Some rows cols t :
  length t = (rows * cols)%nat → reshape rows cols t = Some (rows_of rows cols t).
Proof. intros Hlen. unfold reshape. by rewrite decide_True. Qed.

Section Slicing.

Context {StopId TimeDict : Type}.
#[local] Abbreviation RouteSample := (@RouteSample StopId TimeDict).

Lemma slice_thetas_loop (obj_matrix : list Q) (tsp_data : list RouteSample)
    (idx_so_far : nat) (acc : list matrix) :
  (idx_so_far + sum_sq (route_lens tsp_data) ≤ length obj_matrix)%nat →
  for_in tsp_data
    (λ data '(idx_so_far, thetas_tensor),
       let route_len := length (travel_times data) in
       theta ← reshape route_len route_len
                 (slice idx_so_far (idx_so_far + route_len * route_len)
                    obj_matrix);
       Some ((idx_so_far + route_len * route_len)%nat,
             thetas_tensor ++ [theta]))
    (idx_so_far, acc)
  = Some ((idx_so_far + sum_sq (route_lens tsp_data))%nat,
          acc ++ zip_with (λ n '(lo, hi), rows_of n n (slice lo hi obj_matrix))
                   (route_lens tsp_data)
                   (slice_bounds idx_so_far (route_lens tsp_data))).
Proof.
  revert idx_so_far acc.
  induction tsp_data as [|data tsp_data IH]; intros idx acc Hle.
  { simpl. unfold sum_sq. simpl. by rewrite Nat.add_0_r, app_nil_r. }
  rewrite for_in_cons. cbn zeta.
  change (route_lens (data :: tsp_data))
    with (length (travel_times data) :: route_lens tsp_data) in *.
  change (sum_sq (length (travel_times data) :: route_lens tsp_data))
    with (length (travel_times data) * length (travel_times data)
          + sum_sq (route_lens tsp_data))%nat in *.
  set (n := length (travel_times data)) in *.
  rewrite reshape_Some by (rewrite length_slice; lia).
  cbn [mbind option_bind].
  rewrite IH by lia. cbn [slice_bounds zip_with].
  f_equal. f_equal; [lia|by rewrite <- app_assoc].
Qed.

End Slicing.

Lemma sum_sq_cons n lens : sum_sq (n :: lens) = (n * n + sum_sq lens)%nat.
Proof. done. Qed.

Lemma sum_sq_app l1 l2 : sum_sq (l1 ++ l2) = (sum_sq l1 + sum_sq l2)%nat.
Proof. apply sum_list_with_app. Qed.

Lemma sum_sq_take_S lens k n :
  lens !! k = Some n →
  sum_sq (take (S k) lens) = (sum_sq (take k lens) + n * n)%nat.
Proof.
  intros Hk. rewrite (take_S_r _ _ _ Hk), sum_sq_app, sum_sq_cons.
  change (sum_sq []) with 0%nat. lia.
Qed.

Lemma sum_sq_take_le lens a b :
  (a ≤ b)%nat → (sum_sq (take a lens) ≤ sum_sq (take b lens))%nat.
Proof.
  intros Hab. replace b with (a + (b - a))%nat by lia.
  rewrite <- take_take_drop, sum_sq_app. lia.
Qed.

Lemma sum_sq_take_total lens k : (sum_sq (take k lens) ≤ sum_sq lens)%nat.
Proof. rewrite <- (take_drop k lens) at 2. rewrite sum_sq_app. lia. Qed.

(** The [k]-th range starts at the sum of the squares before it. *)
Lemma slice_bounds_lookup start lens k :
  slice_bounds start lens !! k
  = n ← lens !! k;
    Some ((start + sum_sq (take k lens))%nat,
          (start + sum_sq (take k lens) + n * n)%nat).
Proof.
  revert start k. induction lens as [|m lens IH]; intros start k; [done|].
  destruct k as [|k].
  - simpl. unfold sum_sq. simpl. by rewrite Nat.add_0_r.
  - cbn [slice_bounds lookup list_lookup take]. rewrite IH.
    destruct (lens !! k); [|done]. cbn [mbind option_bind].
    rewrite sum_sq_cons. do 2 f_equal; lia.
Qed.

Lemma length_slice_bounds start lens :
  length (slice_bounds start lens) = length lens.
Proof.
  revert start. induction lens as [|m lens IH]; intros start; [done|].
  simpl. by rewrite IH.
Qed.

Lemma slice_bounds_cover start lens x :
  (start ≤ x < start + sum_sq lens)%nat →
  ∃ k r, slice_bounds start lens !! k = Some r ∧ in_range x r.
Proof.
  revert start. induction lens as [|m lens IH]; intros start Hx.
  { unfold sum_sq in Hx. simpl in Hx. lia. }
  rewrite sum_sq_cons in Hx.
  destruct (decide (x < start + m * m)%nat) as [Hlt|Hge].
  - exists 0%nat, (start, (start + m * m)%nat). split; [done|].
    unfold in_range. simpl. lia.
  - destruct (IH (start + m * m)%nat) as (k & r & Hk & Hr); [lia|].
    by exists (S k), r.
Qed.

Lemma concat_slices (obj : list Q) start lens :
  (start + sum_sq lens ≤ length obj)%nat →
  concat (flatten <$>
            zip_with (λ n '(lo, hi), rows_of n n (slice lo hi obj))
              lens (slice_bounds start lens))
  = slice start (start + sum_sq lens) obj.
Proof.
  revert start. induction lens as [|m lens IH]; intros start Hle.
  { unfold sum_sq, slice. simpl.
    by replace (start + 0 - start)%nat with 0%nat by lia. }
  rewrite sum_sq_cons in *.
  cbn [slice_bounds zip_with fmap list_fmap concat]. unfold flatten at 1.
  rewrite concat_rows_of by (rewrite length_slice; lia).
  rewrite IH by lia.
  rewrite slice_app_next by lia. f_equal. lia.
Qed.

Section SlicingPartition.

Context {StopId TimeDict : Type}.
#[local] Abbreviation RouteSample := (@RouteSample StopId TimeDict).

(** C6.  When the squares of the stop counts of a batch add up to the
    length of the flat predictor output, the slicing loop of [fit]
    returns one matrix per route; the [k]-th matrix has [route_len] rows
    of [route_len] entries and holds the entries of the flat output at
    the [k]-th index range; the ranges start at 0, each starts where the
    one before ends, the last ends at the length of the output, no index
    lies in two of them and every index lies in one; the matrices laid
    end to end are the flat output. *)
Theorem slice_thetas_partition (obj_matrix : list Q)
    (tsp_data : list RouteSample) :
  sum_sq (route_lens tsp_data) = length obj_matrix →
  ∃ thetas_tensor,
    slice_thetas obj_matrix tsp_data = Some thetas_tensor
    ∧ length thetas_tensor = length tsp_data
    ∧ (∀ k theta, thetas_tensor !! k = Some theta →
         ∃ route_len lo hi,
           route_lens tsp_data !! k = Some route_len
           ∧ slice_bounds 0 (route_lens tsp_data) !! k = Some (lo, hi)
           ∧ hi = (lo + route_len * route_len)%nat
           ∧ length theta = route_len
           ∧ Forall (λ row, length row = route_len) theta
           ∧ flatten theta = slice lo hi obj_matrix)
    ∧ (∀ r, slice_bounds 0 (route_lens tsp_data) !! 0%nat = Some r →
            r.1 = 0%nat)
    ∧ (∀ k r r',
         slice_bounds 0 (route_lens tsp_data) !! k = Some r →
         slice_bounds 0 (route_lens tsp_data) !! S k = Some r' →
         r'.1 = r.2)
    ∧ (∀ r, last (slice_bounds 0 (route_lens tsp_data)) = Some r →
            r.2 = length obj_matrix)
    ∧ (∀ j k r r' x,
         j ≠ k →
         slice_bounds 0 (route_lens tsp_data) !! j = Some r →
         slice_bounds 0 (route_lens tsp_data) !! k = Some r' →
         in_range x r → ¬ in_range x r')
    ∧ (∀ x, (x < length obj_matrix)%nat →
         ∃ k r, slice_bounds 0 (route_lens tsp_data) !! k = Some r
                ∧ in_range x r)
    ∧ concat (flatten <$> thetas_tensor) = obj_matrix.
Proof.
  intros Hsum. set (lens := route_lens tsp_data) in *.
  exists (zip_with (λ n '(lo, hi), rows_of n n (slice lo hi obj_matrix))
            lens (slice_bounds 0 lens)).
  assert (Hbound : ∀ k n lo hi,
            lens !! k = Some n → slice_bounds 0 lens !! k = Some (lo, hi) →
            lo = sum_sq (take k lens) ∧ hi = (lo + n * n)%nat
            ∧ (hi ≤ length obj_matrix)%nat).
  { intros k n lo hi Hn Hk. rewrite slice_bounds_lookup, Hn in Hk.
    cbn [mbind option_bind] in Hk. injection Hk as <- <-.
    rewrite ?Nat.add_0_l. split; [done|split; [done|]].
    rewrite <- Hsum, <- (sum_sq_take_S lens k n Hn).
    apply sum_sq_take_total. }
  split; [|split; [|split; [|split; [|split; [|split; [|split; [|split]]]]]]].
  - pose proof (slice_thetas_loop obj_matrix tsp_data 0 []) as Hloop.
    unfold slice_thetas. cbv zeta in *.
    rewrite Hloop by (fold lens; lia). done.
  - rewrite length_zip_with, length_slice_bounds.
    unfold lens, route_lens. rewrite length_fmap. lia.
  - intros k theta Hk. apply lookup_zip_with_Some in Hk
      as (n & [lo hi] & -> & Hn & Hlohi).
    destruct (Hbound k n lo hi Hn Hlohi) as (Hlo & Hhi & Hle).
    exists n, lo, hi. repeat split; try done.
    + apply length_rows_of.
    + apply rows_of_row_lengths. rewrite length_slice; lia.
    + apply concat_rows_of. rewrite length_slice; lia.
  - intros r Hr. rewrite slice_bounds_lookup in Hr.
    destruct (lens !! 0%nat); [|done]. by injection Hr as <-.
  - intros k r r' Hr Hr'. rewrite slice_bounds_lookup in Hr, Hr'.
    destruct (lens !! k) as [n|] eqn:Hn; [|done].
    destruct (lens !! S k) as [n'|]; [|done].
    injection Hr as <-. injection Hr' as <-. cbn [fst snd].
    rewrite (sum_sq_take_S lens k n Hn). lia.
  - intros r Hr. rewrite last_lookup, slice_bounds_lookup in Hr.
    rewrite length_slice_bounds in Hr.
    destruct (lens !! Init.Nat.pred (length lens)) as [n|] eqn:Hn; [|done].
    injection Hr as <-. cbn [snd].
    rewrite <- Hsum, ?Nat.add_0_l, <- (sum_sq_take_S lens _ n Hn).
    apply lookup_lt_Some in Hn. rewrite take_ge; [done|lia].
  - intros j k r r' x Hjk Hr Hr' Hx Hx'.
    rewrite slice_bounds_lookup in Hr, Hr'.
    destruct (lens !! j) as [n|] eqn:Hn; [|done].
    destruct (lens !! k) as [n'|] eqn:Hn'; [|done].
    injection Hr as <-. injection Hr' as <-.
    unfold in_range in *. cbn [fst snd] in *.
    rewrite ?Nat.add_0_l in *.
    rewrite <- (sum_sq_take_S lens j n Hn) in Hx.
    rewrite <- (sum_sq_take_S lens k n' Hn') in Hx'.
    destruct (decide (j < k)%nat).
    + pose proof (sum_sq_take_le lens (S j) k). lia.
    + pose proof (sum_sq_take_le lens (S k) j). lia.
  - intros x Hx. apply slice_bounds_cover. lia.
  - rewrite concat_slices by lia. rewrite ?Nat.add_0_l, Hsum.
    unfold slice. by rewrite drop_0, Nat.sub_0_r, firstn_all.
Qed.

End SlicingPartition.

(** ** Batch dispatcher: the order of the results *)

Section PoolMap.

Context {A B : Type}.
Variable f : A → option B.
Variable xs : list A.

Lemma length_store_outcome slots i :
  length (store_outcome f xs slots i) = length slots.
Proof.
  unfold store_outcome. destruct (xs !! i); [apply length_insert|done].
Qed.

Lemma store_outcome_lookup slots i j :
  length slots = length xs →
  store_outcome f xs slots i !! j
  = if decide (i = j) then x ← xs !! j; Some (Some (f x)) else slots !! j.
Proof.
  intros Hlen. unfold store_outcome. destruct (decide (i = j)) as [->|Hne].
  - destruct (xs !! j) as [x|] eqn:Hx.
    + apply list_lookup_insert_eq. rewrite Hlen. by eapply lookup_lt_Some.
    + cbn [mbind option_bind]. apply lookup_ge_None.
      apply lookup_ge_None in Hx. lia.
  - destruct (xs !! i); [by apply list_lookup_insert_ne|done].
Qed.

Lemma stored_outcomes_lookup completion slots j :
  length slots = length xs →
  foldl (store_outcome f xs) slots completion !! j
  = if decide (j ∈ completion) then x ← xs !! j; Some (Some (f x))
    else slots !! j.
Proof.
  revert slots. induction completion as [|i completion IH]; intros slots Hlen.
  - cbn [foldl]. rewrite decide_False; [done|]. apply not_elem_of_nil.
  - cbn [foldl]. rewrite IH by (by rewrite length_store_outcome).
    rewrite store_outcome_lookup by done.
    destruct (decide (j ∈ completion)) as [Hin|Hnin].
    + rewrite decide_True; [done|by right].
    + destruct (decide (i = j)) as [->|Hne].
      * rewrite decide_True; [done|by left].
      * rewrite decide_False; [done|].
        intros [?|?]%elem_of_cons; congruence.
Qed.

(** Once every task has finished, the slots hold the outcomes in the
    order of the tasks. *)
Lemma stored_outcomes_all completion :
  completion ≡ₚ List.seq 0 (length xs) →
  foldl (store_outcome f xs) (replicate (length xs) None) completion
  = (λ x, Some (f x)) <$> xs.
Proof.
  intros Hperm. apply list_eq. intros j.
  rewrite stored_outcomes_lookup by apply length_replicate.
  rewrite list_lookup_fmap.
  destruct (xs !! j) as [x|] eqn:Hx; cbn [fmap option_fmap option_map].
  - rewrite decide_True; [done|].
    rewrite Hperm. apply elem_of_seq. apply lookup_lt_Some in Hx. lia.
  - destruct (decide (j ∈ completion)); [done|].
    apply lookup_ge_None. rewrite length_replicate.
    by apply lookup_ge_None in Hx.
Qed.

Lemma mapM_id_fmap_Some {C} (l : list C) : mapM id (Some <$> l) = Some l.
Proof. by apply mapM_fmap_Some. Qed.

Lemma mapM_id_fmap {C D} (g : C → option D) (l : list C) :
  mapM id (g <$> l) = mapM g l.
Proof.
  induction l as [|x l IH]; [done|].
  rewrite fmap_cons, !mapM_cons, IH. done.
Qed.

Lemma pool_map_ordered completion :
  completion ≡ₚ List.seq 0 (length xs) →
  pool_map f xs completion = mapM f xs.
Proof.
  intros Hperm. unfold pool_map.
  change (foldl _ (replicate (length xs) None) completion)
    with (foldl (store_outcome f xs) (replicate (length xs) None) completion).
  rewrite (stored_outcomes_all completion Hperm).
  change ((λ x, Some (f x)) <$> xs) with (Some ∘ f <$> xs).
  rewrite (list_fmap_compose f Some xs), mapM_id_fmap_Some.
  cbn [mbind option_bind]. apply mapM_id_fmap.
Qed.

End PoolMap.

(** ** Per-route solver call and batch order *)

Example int_of_truncates :
  int_of (27 # 10) = 2%Z ∧ int_of (-27 # 10) = (-2)%Z ∧ int_of 3 = 3%Z.
Proof. done. Qed.

Section Dispatch.

Context {StopId TimeDict : Type}.
Variable constrained_tsp :
  matrix → matrix → list window → nat → Z → sequence.
Variable score : list StopId → list StopId → TimeDict → Q.

#[local] Abbreviation RouteData := (@RouteData StopId TimeDict).
#[local] Abbreviation ExtCall := (@ExtCall StopId TimeDict).


Lemma closed_stop_ids_nonempty (stop_ids : list StopId) (seq : sequence) ids :
  closed_stop_ids stop_ids seq = Some ids → seq ≠ [].
Proof. intros Hids ->. done. Qed.



(** C7.  Whatever the order in which the workers finish, the batch
    dispatcher returns the outcomes of [compute_tsp_seq_for_route] on the
    input records, in the order of the records: one record per route, the
    [i]-th one computed from the [i]-th input; when a route raises, so
    does the batch. *)
Theorem compute_tsp_seq_for_a_batch_ordered (batch_data : list RouteData)
    (lamb : Q) (completion : list nat) :
  completion ≡ₚ List.seq 0 (length batch_data) →
  compute_tsp_seq_for_a_batch constrained_tsp score batch_data lamb completion
    = mapM (tsp_func constrained_tsp score lamb) batch_data
  ∧ (∀ batch_output,
       compute_tsp_seq_for_a_batch constrained_tsp score batch_data lamb
         completion = Some batch_output →
       length batch_output = length batch_data
       ∧ ∀ i data, batch_data !! i = Some data →
           batch_output !! i = tsp_func constrained_tsp score lamb data
           ∧ is_Some (batch_output !! i)).
Proof.
  intros Hperm. unfold compute_tsp_seq_for_a_batch. cbv zeta.
  rewrite pool_map_ordered by done. split; [done|].
  intros batch_output Hout. split.
  - symmetry. by eapply length_mapM.
  - intros i data Hdata. apply mapM_Some_1 in Hout.
    destruct (Forall2_lookup_l _ _ _ _ _ Hout Hdata) as (out & Hi & Hf).
    rewrite Hi. split; [by rewrite <- Hf|by eexists].
Qed.

End Dispatch.

(** ** The epoch loop of [fit] *)

(** A property of the processed prefix and of the loop state that every
    pass preserves holds when the loop ends. *)
Lemma for_in_ind {A St} (P : list A → St → Prop) (body : A → St → option St)
    (xs : list A) (s0 s : St) :
  P [] s0 →
  (∀ pre x s s', P pre s → body x s = Some s' → P (pre ++ [x]) s') →
  for_in xs body s0 = Some s → P xs s.
Proof.
  intros H0 Hstep. revert s0 H0.
  assert (Hgen : ∀ pre s0, P pre s0 → for_in xs body s0 = Some s →
                           P (pre ++ xs) s).
  { induction xs as [|x xs IH]; intros pre s0 Hpre Hrun.
    - injection Hrun as <-. by rewrite app_nil_r.
    - rewrite for_in_cons in Hrun.
      destruct (body x s0) as [s1|] eqn:Hbody; [|done].
      cbn [mbind option_bind] in Hrun.
      replace (pre ++ x :: xs) with ((pre ++ [x]) ++ xs)
        by (by rewrite <- app_assoc).
      eapply IH; [|done]. by eapply Hstep. }
  intros s0 H0 Hrun. by apply (Hgen [] s0).
Qed.

Lemma foldl_Qplus_snoc (l : list Q) (x acc : Q) :
  foldl Qplus acc (l ++ [x]) = foldl Qplus acc l + x.
Proof. by rewrite foldl_app. Qed.

Section FitProperties.

Context {StopId TimeDict Features : Type}.
Variable constrained_tsp :
  matrix → matrix → list window → nat → Z → sequence.
Variable score : list StopId → list StopId → TimeDict → Q.
Variable predictor : Model → list Features → list Q.
Context {OptState : Type}.
Variable optimizer_init : Model → Q → OptState.
Variable optimizer_step :
  OptState → Model → list Features → list (@RouteSample StopId TimeDict) →
  list RouteOutput → OptState * Model.

#[local] Abbreviation DataLoader := (@DataLoader StopId TimeDict Features).
#[local] Abbreviation StepState := (@StepState OptState).
#[local] Abbreviation FitState := (@FitState OptState).
#[local] Abbreviation train_step' :=
  (train_step constrained_tsp score predictor optimizer_step).
#[local] Abbreviation run_steps' :=
  (run_steps constrained_tsp score predictor optimizer_step).
#[local] Abbreviation fit_epoch' :=
  (fit_epoch constrained_tsp score predictor optimizer_step).
#[local] Abbreviation fit' :=
  (fit constrained_tsp score predictor optimizer_init optimizer_step).
#[local] Abbreviation fit_upto' :=
  (fit_upto constrained_tsp score predictor optimizer_init optimizer_step).

Lemma scalars_app tag l1 l2 :
  scalars tag (l1 ++ l2) = scalars tag l1 ++ scalars tag l2.
Proof. apply omap_app. Qed.

Lemma saves_app l1 l2 : saves (l1 ++ l2) = saves l1 ++ saves l2.
Proof. apply omap_app. Qed.

Lemma train_step_Some epoch_idx len_dataloader batch completion
    (st st' : StepState) :
  train_step' epoch_idx len_dataloader batch completion st = Some st' →
  ∃ loss mean_score global_step,
    ss_writer st'
    = ss_writer st ++ [AddScalar "Train/batch_route_loss" loss global_step;
                       AddScalar "Train/batch_route_score" mean_score
                         global_step]
    ∧ ss_epoch_loss st' = ss_epoch_loss st + loss
    ∧ ss_epoch_score st' = ss_epoch_score st + mean_score.
Proof.
  unfold train_step. destruct batch as [nn_data tsp_data].
  destruct (slice_thetas _ tsp_data) as [thetas|];
    cbn [mbind option_bind]; [|done].
  destruct (compute_tsp_seq_for_a_batch _ _ _ _ _) as [batch_output|];
    cbn [mbind option_bind]; [|done].
  destruct (irl_loss batch_output thetas tsp_data _) as [loss|];
    cbn [mbind option_bind]; [|done].
  destruct (optimizer_step _ _ _ _ _) as [opt' model'].
  destruct (np_mean _) as [mean_score|]; cbn [mbind option_bind]; [|done].
  intros [= <-]. cbn [ss_writer ss_epoch_loss ss_epoch_score].
  by eexists _, _, _.
Qed.

(** The step loop adds the per-step losses and scores it writes, writes
    two scalars per batch and saves nothing. *)
Lemma run_steps_Some (dataloader : DataLoader) schedule epoch_idx
    (st : FitState) (ss : StepState) :
  run_steps' dataloader schedule epoch_idx st = Some ss →
  ∃ new,
    ss_writer ss = fs_writer st ++ new
    ∧ saves new = []
    ∧ ss_epoch_loss ss = Qsum (scalars "Train/batch_route_loss" new)
    ∧ ss_epoch_score ss = Qsum (scalars "Train/batch_route_score" new)
    ∧ length (scalars "Train/batch_route_loss" new) = loader_len dataloader
    ∧ length (scalars "Train/batch_route_score" new) = loader_len dataloader
    ∧ scalars "Train/loss" new = [].
Proof.
  unfold run_steps. intros Hrun.
  apply (for_in_ind (λ pre (ss : StepState), ∃ new,
           ss_writer ss = fs_writer st ++ new
           ∧ saves new = []
           ∧ ss_epoch_loss ss = Qsum (scalars "Train/batch_route_loss" new)
           ∧ ss_epoch_score ss = Qsum (scalars "Train/batch_route_score" new)
           ∧ length (scalars "Train/batch_route_loss" new) = length pre
           ∧ length (scalars "Train/batch_route_score" new) = length pre
           ∧ scalars "Train/loss" new = []))
    in Hrun.
  - destruct Hrun as (new & ? & ? & ? & ? & Hl & Hs & ?). exists new.
    rewrite length_imap in Hl, Hs. unfold loader_batches in Hl, Hs.
    rewrite length_fmap in Hl, Hs. unfold range in Hl, Hs.
    rewrite length_seq, Nat.sub_0_r in Hl, Hs. done.
  - exists []. cbn. by rewrite app_nil_r.
  - intros pre [d_idx data] s s'
      (new & Hw & Hsv & Hl & Hs & Hnl & Hns & Hne) Hstep.
    apply train_step_Some in Hstep
      as (loss & mean_score & gs & Hw' & Hl' & Hs').
    exists (new ++ [AddScalar "Train/batch_route_loss" loss gs;
                    AddScalar "Train/batch_route_score" mean_score gs]).
    rewrite !scalars_app, saves_app, !length_app, Hsv, Hnl, Hns, Hne.
    change (scalars "Train/batch_route_loss" [_; _]) with [loss].
    change (scalars "Train/batch_route_score" [_; _]) with [mean_score].
    unfold Qsum in *. rewrite !foldl_Qplus_snoc, <- Hl, <- Hs.
    rewrite Hw', Hw, <- app_assoc. done.
Qed.

(** The events of one epoch and the state it ends in. *)
Lemma fit_epoch_Some (dataloader : DataLoader) (config : Config) schedule
    epoch_idx (st st' : FitState) :
  fit_epoch' dataloader config schedule epoch_idx st = Some st' →
  ∃ steps m sc,
    (saves steps = [] ∧ scalars "Train/loss" steps = [])
    ∧ length (scalars "Train/batch_route_loss" steps) = loader_len dataloader
    ∧ length (scalars "Train/batch_route_score" steps) = loader_len dataloader
    ∧ py_div (Qsum (scalars "Train/batch_route_loss" steps)
              * inject_Z (Z.of_nat (batch_size config)))
        (length (dataset dataloader)) = Some m
    ∧ py_div (Qsum (scalars "Train/batch_route_score" steps)
              * inject_Z (Z.of_nat (batch_size config)))
        (length (dataset dataloader)) = Some sc
    ∧ fs_writer st'
      = fs_writer st ++ steps
        ++ (if Qlt_le_dec m (fs_best_loss st)
            then [TorchSave (fs_model st') (checkpoint_path config)]
            else [])
        ++ [AddScalar "Train/loss" m epoch_idx;
            AddScalar "Train/score" sc epoch_idx]
    ∧ fs_best_loss st'
      = if Qlt_le_dec m (fs_best_loss st) then m else fs_best_loss st.
Proof.
  unfold fit_epoch. intros Hrun.
  destruct (run_steps' dataloader schedule epoch_idx st) as [ss|] eqn:Hss;
    [|done].
  cbn [mbind option_bind] in Hrun.
  apply run_steps_Some in Hss
    as (steps & Hw & Hsv & Hl & Hs & Hnl & Hns & Hne).
  unfold end_epoch in Hrun. rewrite Hl, Hs in Hrun.
  destruct (py_div (Qsum (scalars "Train/batch_route_loss" steps) * _) _)
    as [m|] eqn:Hm; [|done].
  cbn [mbind option_bind] in Hrun.
  destruct (py_div (Qsum (scalars "Train/batch_route_score" steps) * _) _)
    as [sc|] eqn:Hsc; [|done].
  cbn [mbind option_bind] in Hrun.
  exists steps, m, sc.
  destruct (Qlt_le_dec m (fs_best_loss st)); injection Hrun as <-;
    cbn [fs_writer fs_best_loss fs_model]; rewrite Hw, <- !app_assoc;
    repeat split; done.
Qed.

(** *** Epoch means *)








Lemma fmap_const_seq {C} (c : C) (a n : nat) :
  (λ _, c) <$> List.seq a n = replicate n c.
Proof.
  revert a. induction n as [|n IH]; intros a; [done|].
  cbn [List.seq replicate]. by rewrite fmap_cons, IH.
Qed.

Lemma loader_len_full (B q : nat) :
  (0 < B)%nat → ((q * B + B - 1) / B = q)%nat.
Proof.
  intros HB. replace (q * B + B - 1)%nat with (q * B + (B - 1))%nat by lia.
  rewrite Nat.div_add_l by lia. rewrite Nat.div_small by lia. lia.
Qed.


Lemma batch_sizes_full (dataloader : DataLoader) (q : nat) :
  (0 < loader_batch_size dataloader)%nat →
  length (dataset dataloader) = (q * loader_batch_size dataloader)%nat →
  loader_len dataloader = q
  ∧ batch_sizes dataloader = replicate q (loader_batch_size dataloader).
Proof.
  intros HB HD. set (B := loader_batch_size dataloader) in *.
  assert (Hlen : loader_len dataloader = q).
  { unfold loader_len. fold B. rewrite HD. by apply loader_len_full. }
  split; [done|]. unfold batch_sizes, loader_batches. rewrite Hlen.
  rewrite <- list_fmap_compose. unfold range. rewrite Nat.sub_0_r.
  rewrite <- (fmap_const_seq B 0 q). apply list_fmap_ext.
  intros i k Hk. apply lookup_seq in Hk as [-> Hk].
  cbn [compose snd]. rewrite length_fmap. fold B.
  rewrite length_slice; [lia|]. rewrite HD. nia.
Qed.



(** *** Checkpoints *)

Lemma fit_upto_S model dataloader config schedule k :
  fit_upto' model dataloader config schedule (S k)
  = st ← fit_upto' model dataloader config schedule k;
    fit_epoch' dataloader config schedule k st.
Proof.
  unfold fit_upto, range. rewrite !Nat.sub_0_r, seq_S, for_in_app.
  destruct (for_in (List.seq 0 k) _ _) as [st|]; [|done].
  cbn [mbind option_bind plus for_in].
  by destruct (fit_epoch' dataloader config schedule k st).
Qed.

Lemma fit_epoch_checkpoint (dataloader : DataLoader) (config : Config)
    schedule epoch_idx (st st' : FitState) :
  fit_epoch' dataloader config schedule epoch_idx st = Some st' →
  ∃ steps saved m sc,
    fs_writer st'
      = fs_writer st ++ steps ++ saved
        ++ [AddScalar "Train/loss" m epoch_idx;
            AddScalar "Train/score" sc epoch_idx]
    ∧ (saves steps = [] ∧ scalars "Train/loss" steps = [])
    ∧ (m < fs_best_loss st →
       saved = [TorchSave (fs_model st') (checkpoint_path config)]
       ∧ fs_best_loss st' = m)
    ∧ (fs_best_loss st <= m → saved = [] ∧ fs_best_loss st' = fs_best_loss st)
    ∧ fs_best_loss st' <= fs_best_loss st.
Proof.
  intros Hrun.
  apply fit_epoch_Some in Hrun
    as (steps & m & sc & Hsv & _ & _ & _ & _ & Hw & Hbest).
  exists steps,
    (if Qlt_le_dec m (fs_best_loss st)
     then [TorchSave (fs_model st') (checkpoint_path config)] else []), m, sc.
  split; [done|]. split; [done|].
  destruct (Qlt_le_dec m (fs_best_loss st)) as [Hlt|Hle]; rewrite Hbest;
    repeat split; try done; try lra; intros; lra.
Qed.

Lemma best_seen_snoc (ms : list Q) (m : Q) :
  best_seen (ms ++ [m])
  = if Qlt_le_dec m (best_seen ms) then m else best_seen ms.
Proof. unfold best_seen. by rewrite foldl_app. Qed.


(** The epochs of a run write one mean loss each, and the best loss is
    the one the update rule gives on them. *)
Lemma fit_upto_losses model (dataloader : DataLoader) (config : Config)
    schedule k (st : FitState) :
  fit_upto' model dataloader config schedule k = Some st →
  length (scalars "Train/loss" (fs_writer st)) = k
  ∧ fs_best_loss st = best_seen (scalars "Train/loss" (fs_writer st)).
Proof.
  revert st. induction k as [|k IH]; intros st Hst.
  - by injection Hst as <-.
  - rewrite fit_upto_S in Hst.
    destruct (fit_upto' model dataloader config schedule k) as [st_k|];
      [|done].
    cbn [mbind option_bind] in Hst. destruct (IH st_k eq_refl) as [Hlen Hbest].
    destruct (fit_epoch_checkpoint _ _ _ _ _ _ Hst)
      as (steps & saved & m & sc & Hw & [_ Hne] & Hlt & Hle & _).
    assert (Hsaved : scalars "Train/loss" saved = []).
    { destruct (Qlt_le_dec m (fs_best_loss st_k)) as [H|H].
      - by destruct (Hlt H) as [-> _].
      - by destruct (Hle H) as [-> _]. }
    rewrite Hw, !scalars_app, Hne, Hsaved. cbn [app].
    change (scalars "Train/loss" [_; _]) with [m].
    rewrite length_app, Hlen, best_seen_snoc, <- Hbest. split; [simpl; lia|].
    destruct (Qlt_le_dec m (fs_best_loss st_k)) as [H|H].
    + by destruct (Hlt H) as [_ ->].
    + by destruct (Hle H) as [_ ->].
Qed.


End FitProperties.

(** * The statements at the worked run *)

(** C1 at the worked route: the loss of the one-route batch is its
    hinge, 1. *)
Lemma irl_loss_mean_hinge_worked :
  irl_loss [Worked.output3] [Worked.theta3] [Worked.route3] Worked.model0
  = irl_loss_spec [Worked.output3] [Worked.theta3] [Worked.route3]
      Worked.model0
  ∧ ∃ v, irl_loss [Worked.output3] [Worked.theta3] [Worked.route3]
           Worked.model0 = Some v
         ∧ v == 1.
Proof.
  split.
  - apply (irl_loss_mean_hinge [Worked.output3] [Worked.theta3]
             [Worked.route3] Worked.model0);
      [discriminate|reflexivity|reflexivity].
  - eexists. split; reflexivity.
Defined.

(** C2 at the two-stop route: position 1 is reached at time 1, within
    its window, and the violation is 0. *)
Lemma compute_time_violation_seq_windows_worked :
  ∃ v, compute_time_violation_seq two_stop_times late_start_windows
         [0; 1]%nat = Some v
       ∧ v == 0.
Proof.
  apply (compute_time_violation_seq_windows two_stop_times late_start_windows
           [0; 1]%nat).
  intros i Hi. assert (i = 1%nat) as -> by (simpl in Hi; lia).
  exists (0 + 1), (0, 10). repeat split; try reflexivity; simpl; lra.
Defined.

(** C10 at the two-stop route: another window at position 0 and another
    entry on the closing edge leave the result as it is. *)
Lemma compute_time_violation_seq_reads_worked :
  compute_time_violation_seq two_stop_times late_start_windows [0; 1]%nat
  = compute_time_violation_seq [[0; 1]; [7; 0]] [(0, 0); (0, 10)] [0; 1]%nat.
Proof.
  apply compute_time_violation_seq_reads.
  - intros i Hi. assert (i = 1%nat) as -> by (simpl in Hi; lia). reflexivity.
  - intros a b Hab. apply list_elem_of_singleton in Hab. by simplify_eq.
Defined.



(** C6 at a batch of a three-stop and a two-stop route: 9 + 4 = 13
    entries, cut into a 3 x 3 and a 2 x 2 matrix. *)
Lemma slice_thetas_partition_worked :
  sum_sq (route_lens [Worked.route3; Worked.route2]) = length Worked.flat13
  ∧ ∃ thetas_tensor,
      slice_thetas Worked.flat13 [Worked.route3; Worked.route2]
        = Some thetas_tensor
      ∧ concat (flatten <$> thetas_tensor) = Worked.flat13.
Proof.
  split; [reflexivity|].
  destruct (slice_thetas_partition Worked.flat13
              [Worked.route3; Worked.route2] eq_refl)
    as (thetas & Hslice & _ & _ & _ & _ & _ & _ & _ & Hconcat).
  by exists thetas.
Defined.

(** C7 at a batch of two records whose second worker finishes first. *)
Lemma compute_tsp_seq_for_a_batch_ordered_worked :
  compute_tsp_seq_for_a_batch Worked.solver Worked.scorer
    [Worked.record3; Worked.record3] 1 [1; 0]%nat
  = mapM (tsp_func Worked.solver Worked.scorer 1)
      [Worked.record3; Worked.record3].
Proof.
  apply (compute_tsp_seq_for_a_batch_ordered Worked.solver Worked.scorer
           [Worked.record3; Worked.record3] 1 [1; 0]%nat).
  apply perm_swap.
Defined.




(** C4, as stated, fails: on the same cost matrices and the same batch
    output, two model states that differ only in [lamb] have different
    losses. *)
Lemma irl_loss_depends_on_lamb :
  ∃ v0 v1,
    irl_loss [Worked.late_output3] [Worked.zero3] [Worked.route3]
      (mkModel 0 []) = Some v0
    ∧ irl_loss [Worked.late_output3] [Worked.zero3] [Worked.route3]
        (mkModel 1 []) = Some v1
    ∧ ¬ v0 == v1.
Proof.
  eexists _, _. split; [reflexivity|]. split; [reflexivity|].
  vm_compute. discriminate.
Qed.

(** C4 (amended) at the worked route: other network parameters and
    another score leave the loss as it is. *)
Lemma irl_loss_depends_on_worked :
  irl_loss [Worked.output3] [Worked.theta3] [Worked.route3] (mkModel 1 [0])
  = irl_loss [mkRouteOutput [0; 2; 1]%nat 0 0 5] [Worked.theta3]
      [Worked.route3] (mkModel 1 [5]).
Proof.
  apply irl_loss_depends_on; [reflexivity| |].
  - by repeat constructor.
  - by repeat constructor.
Defined.


(** * Further properties of the code *)

(** ** When the evaluators return *)

Lemma for_in_is_Some {A St} (Q : A → Prop) (body : A → St → option St)
    (xs : list A) (s : St) :
  (∀ x s, is_Some (body x s) ↔ Q x) →
  is_Some (for_in xs body s) ↔ Forall Q xs.
Proof.
  intros Hbody. revert s. induction xs as [|x xs IH]; intros s.
  - split; [constructor|by eexists].
  - rewrite for_in_cons, Forall_cons, <- (Hbody x s).
    destruct (body x s) as [s'|]; cbn [mbind option_bind].
    + rewrite IH. split; [by split|by intros [_ ?]].
    + split; [by intros [? ?]|by intros [[? ?] _]].
Qed.


Lemma edge_sum_is_Some m es acc : is_Some (edge_sum m es acc) ↔ edges_in m es.
Proof.
  unfold edge_sum, edges_in. apply for_in_is_Some. intros [a b] s.
  cbn [fst snd]. destruct (mat_get m a b); cbn [mbind option_bind].
  - split; by eexists.
  - split; by intros [? ?].
Qed.

Lemma steps_from_fst k seq :
  (steps_from k seq).*1 = List.seq k (length seq - 1).
Proof.
  revert k. induction seq as [|a seq IH]; intros k; [done|].
  destruct seq as [|b rest]; [done|].
  change (steps_from k (a :: b :: rest))
    with ((k, (a, b)) :: steps_from (S k) (b :: rest)).
  rewrite fmap_cons, IH.
  replace (length (a :: b :: rest) - 1)%nat
    with (S (length (b :: rest) - 1)) by (simpl; lia).
  done.
Qed.

(** X1.  For a feature tensor with at least one plane,
    [compute_link_cost_seq] returns a result exactly when the sequence
    is not empty and every cyclic edge of it indexes the time matrix and
    every feature plane; the empty sequence is an error; a returned
    feature cost has one entry per feature plane.  (A tensor without
    planes still has a shape in NumPy, which a list of planes does not
    record; hence the hypothesis.) *)
Theorem compute_link_cost_seq_defined (tm : matrix) (lf : list matrix)
    (seq : sequence) :
  lf ≠ [] →
  (is_Some (compute_link_cost_seq tm lf seq) ↔
   seq ≠ []
   ∧ edges_in tm (cyclic_pairs seq)
   ∧ Forall (λ plane, edges_in plane (cyclic_pairs seq)) lf)
  ∧ compute_link_cost_seq tm lf [] = None
  ∧ (∀ time_cost feature_cost,
       compute_link_cost_seq tm lf seq = Some (time_cost, feature_cost) →
       length feature_cost = length lf).
Proof.
  intros _. rewrite !compute_link_cost_seq_spec. split; [|split; [done|]].
  - unfold link_cost_spec. destruct seq as [|s0 seq'].
    { split; [by intros [? ?]|by intros [? _]]. }
    set (seq := s0 :: seq').
    rewrite <- (edge_sum_is_Some tm (cyclic_pairs seq) 0).
    rewrite (Forall_iff _ lf
               (is_Some ∘ (λ plane, edge_sum plane (cyclic_pairs seq) 0)))
      by (intros plane; symmetry; apply edge_sum_is_Some).
    rewrite <- mapM_is_Some.
    destruct (edge_sum tm (cyclic_pairs seq) 0) as [tc|];
      cbn [mbind option_bind].
    + destruct (mapM _ lf) as [fc|]; cbn [mbind option_bind].
      * split; [intros _; split; [done|split; by eexists]|by eexists].
      * split; [by intros [? ?]|by intros (_ & _ & [? ?])].
    + split; [by intros [? ?]|by intros (_ & [? ?] & _)].
  - intros tc fc Hspec. unfold link_cost_spec in Hspec.
    destruct seq as [|s0 seq']; [done|].
    destruct (edge_sum tm _ 0) as [tc'|]; cbn [mbind option_bind] in Hspec;
      [|done].
    destruct (mapM _ lf) as [fc'|] eqn:Hfc; cbn [mbind option_bind] in Hspec;
      [|done].
    injection Hspec as <- <-. symmetry. by eapply length_mapM.
Qed.

Lemma Forall_steps_from (P : nat * nat → Prop) (R : nat → Prop) k seq :
  Forall (λ st : nat * (nat * nat), P st.2 ∧ R st.1) (steps_from k seq)
  ↔ Forall P (consecutive_pairs seq)
    ∧ ∀ i, (k ≤ i < k + (length seq - 1))%nat → R i.
Proof.
  rewrite Forall_and, <- (steps_from_pairs k seq).
  rewrite <- (Forall_seq R k (length seq - 1)), <- (steps_from_fst k seq).
  by rewrite !Forall_fmap.
Qed.

(** X2.  [compute_time_violation_seq] returns a result exactly when
    every consecutive edge of the sequence indexes the time matrix and
    every position from 1 on has a window; the closing edge and the
    window of position 0 are not needed.  A sequence of at most one stop
    has the violation 0 whatever the matrix and the windows are. *)
Theorem compute_time_violation_seq_defined (tm : matrix) (tcs : list window)
    (seq : sequence) :
  (is_Some (compute_time_violation_seq tm tcs seq) ↔
   edges_in tm (consecutive_pairs seq)
   ∧ ∀ i, (1 ≤ i < length seq)%nat → is_Some (tcs !! i))
  ∧ ((length seq ≤ 1)%nat → compute_time_violation_seq tm tcs seq = Some 0).
Proof.
  rewrite compute_time_violation_seq_steps. split.
  - transitivity
      (is_Some (for_in (steps_from 1 seq) (violation_body tm tcs) (0, 0, 0))).
    { destruct (for_in _ _ _); cbn [mbind option_bind];
        split; try (by intros [? ?]); by eexists. }
    rewrite (for_in_is_Some
               (λ st : nat * (nat * nat),
                  is_Some (mat_get tm st.2.1 st.2.2) ∧ is_Some (tcs !! st.1))).
    + rewrite (Forall_steps_from (λ e, is_Some (mat_get tm e.1 e.2))
                 (λ i, is_Some (tcs !! i))).
      unfold edges_in. split; intros [He Hw]; (split; [done|]);
        intros i Hi; apply Hw; lia.
    + intros [idx [a b]] [[time vd] vu]. cbn [violation_body fst snd].
      unfold window in *.
      destruct (mat_get tm a b); cbn [mbind option_bind].
      2:{ split; [by intros [? ?]|by intros [[? ?] _]]. }
      destruct (tcs !! idx); cbn [mbind option_bind].
      * split; [intros _; split; by eexists|by eexists].
      * split; [by intros [? ?]|by intros [_ [? ?]]].
  - intros Hlen. destruct seq as [|a [|b rest]]; [done|done|].
    simpl in Hlen. lia.
Qed.

(** ** The violation as a sum of penalties *)

Lemma range_1_snoc (n : nat) :
  (1 ≤ n)%nat → range 1 (S n) = range 1 n ++ [n].
Proof.
  intros Hn. unfold range.
  replace (S n - 1)%nat with (S (n - 1)) by lia.
  rewrite seq_S. do 2 f_equal. lia.
Qed.

Lemma elem_of_range lo hi i : i ∈ range lo hi ↔ (lo ≤ i < hi)%nat.
Proof. unfold range. rewrite elem_of_seq. lia. Qed.

(** The state of the loop after the last position, penalty by penalty. *)
Lemma violation_loop_penalties tm tcs seq time vd vu :
  for_in (steps_from 1 seq) (violation_body tm tcs) (0, 0, 0)
    = Some (time, vd, vu) →
  edge_sum tm (consecutive_pairs seq) 0 = Some time
  ∧ vd = Qsum (early_penalty tm tcs seq <$> range 1 (length seq))
  ∧ vu = Qsum (late_penalty tm tcs seq <$> range 1 (length seq)).
Proof.
  revert time vd vu. induction seq as [|x seq IH] using rev_ind;
    intros time vd vu.
  { by intros [= <- <- <-]. }
  rewrite steps_from_snoc, for_in_app.
  destruct (last seq) as [a|] eqn:Hlast.
  2:{ apply last_None in Hlast as ->. by intros [= <- <- <-]. }
  assert (Hne : (1 ≤ length seq)%nat).
  { destruct seq; [done|simpl; lia]. }
  replace (1 + length seq - 1)%nat with (length seq) by lia.
  rewrite length_app. cbn [length]. rewrite Nat.add_1_r, range_1_snoc by done.
  destruct (for_in (steps_from 1 seq) _ _) as [[[time0 vd0] vu0]|];
    cbn [mbind option_bind]; [|done].
  destruct (IH _ _ _ eq_refl) as (Htime & Hvd & Hvu).
  cbn [for_in violation_body].
  pose proof (elapsed_snoc_last tm seq a x Hlast) as Hel.
  rewrite Htime in Hel. cbn [mbind option_bind] in Hel.
  destruct (mat_get tm a x) as [t|] eqn:Ht; cbn [mbind option_bind] in *;
    [|done].
  destruct (tcs !! length seq) as [w|] eqn:Hw; cbn [mbind option_bind];
    [|done].
  intros [= <- <- <-].
  rewrite !fmap_app. unfold Qsum in *. cbn [fmap list_fmap].
  rewrite !foldl_Qplus_snoc.
  rewrite (list_fmap_ext (early_penalty tm tcs (seq ++ [x]))
             (early_penalty tm tcs seq) (range 1 (length seq))).
  2:{ intros ? i Hi%list_elem_of_lookup_2%elem_of_range.
      unfold early_penalty. by rewrite elapsed_snoc_lt by lia. }
  rewrite (list_fmap_ext (late_penalty tm tcs (seq ++ [x]))
             (late_penalty tm tcs seq) (range 1 (length seq))).
  2:{ intros ? i Hi%list_elem_of_lookup_2%elem_of_range.
      unfold late_penalty. by rewrite elapsed_snoc_lt by lia. }
  unfold early_penalty at 2, late_penalty at 2. unfold window in *.
  rewrite Hel, Hw, <- Hvd, <- Hvu.
  split; [|done].
  rewrite consecutive_pairs_snoc, Hlast, edge_sum_app, Htime.
  cbn [mbind option_bind]. by rewrite edge_sum_cons, Ht.
Qed.

Lemma Qsum_nonneg (l : list Q) : Forall (λ h, 0 <= h) l → 0 <= Qsum l.
Proof. intros Hl. apply foldl_Qplus_nonneg; [lra|done]. Qed.

(** X3.  The violation that [compute_time_violation_seq] returns is the
    sum, over the positions 1..N-1, of the late penalties
    [max(0, elapsed - upper)] plus the sum of the early penalties
    [max(0, lower - elapsed)], where [elapsed] is the travel time of the
    consecutive edges up to the position; and visiting one more stop at
    the end never lowers it. *)
Theorem compute_time_violation_seq_penalties (tm : matrix)
    (tcs : list window) (seq : sequence) (v : Q) :
  compute_time_violation_seq tm tcs seq = Some v →
  v = Qsum (late_penalty tm tcs seq <$> range 1 (length seq))
      + Qsum (early_penalty tm tcs seq <$> range 1 (length seq))
  ∧ ∀ x v', compute_time_violation_seq tm tcs (seq ++ [x]) = Some v' →
            v <= v'.
Proof.
  rewrite compute_time_violation_seq_steps.
  destruct (for_in (steps_from 1 seq) _ _) as [[[time vd] vu]|] eqn:Hloop;
    cbn [mbind option_bind]; [|done].
  intros [= <-]. cbn [fst snd].
  destruct (violation_loop_penalties _ _ _ _ _ _ Hloop) as (_ & -> & ->).
  split; [done|]. intros x v'.
  rewrite compute_time_violation_seq_steps.
  destruct (for_in (steps_from 1 (seq ++ [x])) _ _) as [[[time' vd'] vu']|]
    eqn:Hloop'; cbn [mbind option_bind]; [|done].
  intros [= <-]. cbn [fst snd].
  destruct (violation_loop_penalties _ _ _ _ _ _ Hloop') as (_ & -> & ->).
  rewrite length_app. cbn [length]. rewrite Nat.add_1_r.
  destruct (decide (length seq = 0)%nat) as [Hz|Hnz].
  { rewrite Hz. cbn. lra. }
  rewrite range_1_snoc by lia. rewrite !fmap_app. unfold Qsum.
  cbn [fmap list_fmap]. rewrite !foldl_Qplus_snoc.
  rewrite (list_fmap_ext (early_penalty tm tcs (seq ++ [x]))
             (early_penalty tm tcs seq) (range 1 (length seq))).
  2:{ intros ? i Hi%list_elem_of_lookup_2%elem_of_range.
      unfold early_penalty. by rewrite elapsed_snoc_lt by lia. }
  rewrite (list_fmap_ext (late_penalty tm tcs (seq ++ [x]))
             (late_penalty tm tcs seq) (range 1 (length seq))).
  2:{ intros ? i Hi%list_elem_of_lookup_2%elem_of_range.
      unfold late_penalty. by rewrite elapsed_snoc_lt by lia. }
  assert (0 <= late_penalty tm tcs (seq ++ [x]) (length seq)) as Hl.
  { unfold late_penalty, window in *.
    destruct (elapsed tm (seq ++ [x]) (length seq)), (tcs !! length seq);
      try lra; apply Qmax_0_nonneg. }
  assert (0 <= early_penalty tm tcs (seq ++ [x]) (length seq)) as He.
  { unfold early_penalty, window in *.
    destruct (elapsed tm (seq ++ [x]) (length seq)), (tcs !! length seq);
      try lra; apply Qmax_0_nonneg. }
  lra.
Qed.

(** ** What the route function returns and when it raises *)

Lemma int_of_bounds (x : Q) :
  (0 <= x → inject_Z (int_of x) <= x ∧ x < inject_Z (int_of x) + 1)
  ∧ (x <= 0 → x <= inject_Z (int_of x) ∧ inject_Z (int_of x) - 1 < x).
Proof.
  destruct x as [n d]. unfold int_of, Qle, Qlt. cbn.
  pose proof (Z.quot_rem' n (Z.pos d)) as Hqr.
  split; intros Hn.
  - pose proof (Z.rem_bound_pos_pos n (Z.pos d)). nia.
  - pose proof (Z.rem_bound_pos_neg n (Z.pos d)). nia.
Qed.

Lemma int_of_inject_Z (z : Z) : int_of (inject_Z z) = z.
Proof. unfold int_of. cbn. apply Z.quot_1_r. Qed.

Section RouteOutcome.

Context {StopId TimeDict : Type}.
Variable constrained_tsp :
  matrix → matrix → list window → nat → Z → sequence.
Variable score : list StopId → list StopId → TimeDict → Q.

#[local] Abbreviation RouteData := (@RouteData StopId TimeDict).
#[local] Abbreviation ExtCall := (@ExtCall StopId TimeDict).

(** The identifiers handed to the scorer form a closed cycle: one more
    than the stops, the first one again at the end, and the identifier
    of the [i]-th stop at position [i]. *)
Lemma closed_stop_ids_cycle (stop_ids : list StopId) (seq : sequence) ids :
  closed_stop_ids stop_ids seq = Some ids →
  length ids = S (length seq)
  ∧ last ids = head ids
  ∧ (∀ i j, seq !! i = Some j →
       is_Some (stop_ids !! j) ∧ ids !! i = stop_ids !! j).
Proof.
  unfold closed_stop_ids.
  destruct (mapM (λ j, stop_ids !! j) seq) as [ids0|] eqn:Hids;
    cbn [mbind option_bind]; [|done].
  destruct (ids0 !! 0%nat) as [first|] eqn:Hfirst;
    cbn [mbind option_bind]; [|done].
  intros [= <-]. pose proof (length_mapM _ _ _ Hids) as Hlen.
  split; [|split].
  - rewrite length_app. cbn [length]. lia.
  - rewrite last_snoc, head_lookup, lookup_app_l; [done|].
    by eapply lookup_lt_Some.
  - intros i j Hj. apply mapM_Some_1 in Hids.
    destruct (Forall2_lookup_l _ _ _ _ _ Hids Hj) as (id & Hi & Hid).
    rewrite Hid, lookup_app_l by (by eapply lookup_lt_Some).
    split; [by eexists|done].
Qed.

Lemma closed_stop_ids_head (stop_ids : list StopId) (seq : sequence) ids :
  closed_stop_ids stop_ids seq = Some ids → is_Some (seq !! 0%nat).
Proof. intros Hids. destruct seq; [done|by eexists]. Qed.

(** The route function, case by case. *)
Lemma compute_tsp_seq_for_route_cases (data : RouteData) (lamb : Q) :
  let r := compute_tsp_seq_for_route constrained_tsp score data lamb in
  match closed_stop_ids (rd_stop_ids data) (rd_label data) with
  | None => r = ([], None)
  | Some demo_stop_ids =>
      ∃ depot, rd_label data !! 0%nat = Some depot
        ∧ let pred_seq :=
            constrained_tsp (rd_objective_matrix data) (rd_travel_times data)
              (rd_time_constraints data) depot (int_of lamb) in
          let solver_call :=
            SolverCall (rd_objective_matrix data) (rd_travel_times data)
              (rd_time_constraints data) depot (int_of lamb) in
          match compute_time_violation_seq (rd_travel_times data)
                  (rd_time_constraints data) pred_seq,
                compute_time_violation_seq (rd_travel_times data)
                  (rd_time_constraints data) (rd_label data),
                closed_stop_ids (rd_stop_ids data) pred_seq with
          | Some pred_tv, Some demo_tv, Some pred_stop_ids =>
              r = ([solver_call;
                    ScoreCall demo_stop_ids pred_stop_ids
                      (rd_travel_time_dict data)],
                   Some (mkRouteOutput pred_seq demo_tv pred_tv
                           (score demo_stop_ids pred_stop_ids
                              (rd_travel_time_dict data))))
          | _, _, _ => r = ([solver_call], None)
          end
  end.
Proof.
  unfold compute_tsp_seq_for_route. cbv zeta.
  destruct (closed_stop_ids (rd_stop_ids data) (rd_label data)) as [demo|]
    eqn:Hdemo; [|done].
  destruct (closed_stop_ids_head _ _ _ Hdemo) as [depot Hdepot].
  exists depot. split; [done|]. rewrite Hdepot.
  cbn [ext_bind ext_lift call_solver app].
  set (pred_seq := constrained_tsp _ _ _ _ _).
  destruct (compute_time_violation_seq _ _ pred_seq) as [pred_tv|];
    cbn [ext_bind ext_lift app]; [|done].
  destruct (compute_time_violation_seq _ _ (rd_label data)) as [demo_tv|];
    cbn [ext_bind ext_lift app]; [|done].
  by destruct (closed_stop_ids _ pred_seq) as [pred_ids|].
Qed.

Lemma compute_time_violation_seq_nonneg tm tcs seq v :
  compute_time_violation_seq tm tcs seq = Some v → 0 <= v.
Proof.
  rewrite compute_time_violation_seq_steps.
  pose proof (violation_loop_spec tm tcs seq) as Hloop.
  destruct (for_in (steps_from 1 seq) _ _) as [[[time vd] vu]|];
    cbn [mbind option_bind]; [|done].
  intros [= <-]. cbn [fst snd]. destruct Hloop as (_ & ? & ? & _). lra.
Qed.

(** X4.  A call of [compute_tsp_seq_for_route] that returns has made
    exactly two external calls, the solver's and then the scorer's; the
    scorer was given the identifiers of the demonstrated and of the
    predicted stops as closed cycles (one identifier per stop and the
    first one again at the end) with the record's travel-time lookup,
    and the tuple holds the scorer's answer; the two violations of the
    tuple are those of the demonstrated and of the predicted sequence
    under the record's travel times and windows, and are not negative. *)
Theorem compute_tsp_seq_for_route_outcome (data : RouteData) (lamb : Q)
    (log : list ExtCall) (out : RouteOutput) :
  compute_tsp_seq_for_route constrained_tsp score data lamb
    = (log, Some out) →
  ∃ depot demo_stop_ids pred_stop_ids,
    log = [SolverCall (rd_objective_matrix data) (rd_travel_times data)
             (rd_time_constraints data) depot (int_of lamb);
           ScoreCall demo_stop_ids pred_stop_ids (rd_travel_time_dict data)]
    ∧ out_seq_score out
      = score demo_stop_ids pred_stop_ids (rd_travel_time_dict data)
    ∧ (length demo_stop_ids = S (length (rd_label data))
       ∧ last demo_stop_ids = head demo_stop_ids
       ∧ ∀ i j, rd_label data !! i = Some j →
           demo_stop_ids !! i = rd_stop_ids data !! j)
    ∧ (length pred_stop_ids = S (length (out_pred_seq out))
       ∧ last pred_stop_ids = head pred_stop_ids
       ∧ ∀ i j, out_pred_seq out !! i = Some j →
           pred_stop_ids !! i = rd_stop_ids data !! j)
    ∧ compute_time_violation_seq (rd_travel_times data)
        (rd_time_constraints data) (rd_label data) = Some (out_demo_tv out)
    ∧ compute_time_violation_seq (rd_travel_times data)
        (rd_time_constraints data) (out_pred_seq out)
      = Some (out_pred_tv out)
    ∧ 0 <= out_demo_tv out ∧ 0 <= out_pred_tv out.
Proof.
  intros Hrun. pose proof (compute_tsp_seq_for_route_cases data lamb) as Hc.
  cbv zeta in Hc. rewrite Hrun in Hc.
  destruct (closed_stop_ids (rd_stop_ids data) (rd_label data)) as [demo|]
    eqn:Hdemo; [|done].
  destruct Hc as (depot & Hdepot & Hc).
  set (pred_seq := constrained_tsp _ _ _ _ _) in *.
  destruct (compute_time_violation_seq _ _ pred_seq) as [pred_tv|] eqn:Hptv;
    [|done].
  destruct (compute_time_violation_seq _ _ (rd_label data)) as [demo_tv|]
    eqn:Hdtv; [|done].
  destruct (closed_stop_ids _ pred_seq) as [pred_ids|] eqn:Hpred; [|done].
  injection Hc as -> ->. cbn [out_pred_seq out_demo_tv out_pred_tv out_seq_score].
  exists depot, demo, pred_ids.
  destruct (closed_stop_ids_cycle _ _ _ Hdemo) as (Hdl & Hdc & Hdi).
  destruct (closed_stop_ids_cycle _ _ _ Hpred) as (Hpl & Hpc & Hpi).
  repeat split; try done.
  - intros i j Hj. by apply Hdi.
  - intros i j Hj. by apply Hpi.
  - by eapply compute_time_violation_seq_nonneg.
  - by eapply compute_time_violation_seq_nonneg.
Qed.

(** X5.  [compute_tsp_seq_for_route] returns exactly when the label is
    not empty and indexes the stop identifiers, both violations can be
    evaluated, and the solver's sequence is not empty and indexes the
    stop identifiers.  When it raises, the scorer has not been called;
    and when the label is empty or has a stop without an identifier, it
    raises before the solver is called. *)
Theorem compute_tsp_seq_for_route_raises (data : RouteData) (lamb : Q) :
  let r := compute_tsp_seq_for_route constrained_tsp score data lamb in
  (is_Some r.2 ↔
   ∃ depot, rd_label data !! 0%nat = Some depot
     ∧ is_Some (closed_stop_ids (rd_stop_ids data) (rd_label data))
     ∧ is_Some (compute_time_violation_seq (rd_travel_times data)
                  (rd_time_constraints data) (rd_label data))
     ∧ is_Some (compute_time_violation_seq (rd_travel_times data)
                  (rd_time_constraints data)
                  (constrained_tsp (rd_objective_matrix data)
                     (rd_travel_times data) (rd_time_constraints data)
                     depot (int_of lamb)))
     ∧ is_Some (closed_stop_ids (rd_stop_ids data)
                  (constrained_tsp (rd_objective_matrix data)
                     (rd_travel_times data) (rd_time_constraints data)
                     depot (int_of lamb))))
  ∧ (r.2 = None → ∀ d p t, ScoreCall d p t ∉ r.1)
  ∧ (closed_stop_ids (rd_stop_ids data) (rd_label data) = None → r.1 = [])
  ∧ (rd_label data = [] ∨ Exists (λ j, (length (rd_stop_ids data) ≤ j)%nat)
                             (rd_label data) →
     r = ([], None)).
Proof.
  pose proof (compute_tsp_seq_for_route_cases data lamb) as Hc.
  cbv zeta in *.
  set (r := compute_tsp_seq_for_route constrained_tsp score data lamb) in *.
  destruct (closed_stop_ids (rd_stop_ids data) (rd_label data)) as [demo|]
    eqn:Hdemo.
  - destruct Hc as (depot & Hdepot & Hc).
    set (pred_seq := constrained_tsp _ _ _ _ _) in *.
    split; [|split; [|split]].
    + split.
      * intros Hsome. exists depot. split; [done|]. split; [by eexists|].
        fold pred_seq.
        destruct (compute_time_violation_seq _ _ pred_seq) as [pred_tv|];
          [|rewrite Hc in Hsome; by destruct Hsome].
        destruct (compute_time_violation_seq _ _ (rd_label data))
          as [demo_tv|]; [|rewrite Hc in Hsome; by destruct Hsome].
        destruct (closed_stop_ids _ pred_seq) as [pred_ids|];
          [|rewrite Hc in Hsome; by destruct Hsome].
        repeat split; by eexists.
      * intros (depot0 & Hdepot0 & _ & [demo_tv Hdtv] & Hptv & Hpred).
        rewrite Hdepot in Hdepot0. injection Hdepot0 as <-.
        fold pred_seq in Hptv, Hpred.
        destruct Hptv as [pred_tv Hptv], Hpred as [pred_ids Hpred].
        rewrite Hptv, Hdtv, Hpred in Hc. rewrite Hc. by eexists.
    + intros Hnone d p t Hin.
      destruct (compute_time_violation_seq _ _ pred_seq) as [pred_tv|];
        [|rewrite Hc in Hin; apply list_elem_of_singleton in Hin; done].
      destruct (compute_time_violation_seq _ _ (rd_label data))
        as [demo_tv|];
        [|rewrite Hc in Hin; apply list_elem_of_singleton in Hin; done].
      destruct (closed_stop_ids _ pred_seq) as [pred_ids|];
        [|rewrite Hc in Hin; apply list_elem_of_singleton in Hin; done].
      by rewrite Hc in Hnone.
    + done.
    + intros [Hnil|Hout].
      * rewrite Hnil in Hdepot. done.
      * apply Exists_exists in Hout as (j & Hj & Hge).
        apply list_elem_of_lookup in Hj as [i Hi].
        destruct (closed_stop_ids_cycle _ _ _ Hdemo) as (_ & _ & Hids).
        destruct (Hids i j Hi) as [[id Hid] _].
        apply lookup_lt_Some in Hid. lia.
  - rewrite Hc. split; [|split; [|split]]; try done.
    + split; [by intros [? ?]|].
      by intros (_ & _ & [? ?] & _).
    + intros _ d p t Hin. by apply elem_of_nil in Hin.
Qed.

(** X6.  The route function sees [lamb] only through [int(lamb)]: it
    behaves at [lamb] as at the integer that [int] truncates it to,
    which lies between 0 and [lamb] and less than 1 away from it; so
    for every [lamb] strictly between -1 and 1 the solver is called with
    0. *)
Theorem compute_tsp_seq_for_route_int_lamb (data : RouteData) (lamb : Q) :
  compute_tsp_seq_for_route constrained_tsp score data lamb
    = compute_tsp_seq_for_route constrained_tsp score data
        (inject_Z (int_of lamb))
  ∧ (0 <= lamb →
     0 <= inject_Z (int_of lamb) <= lamb ∧ lamb < inject_Z (int_of lamb) + 1)
  ∧ (lamb <= 0 →
     lamb <= inject_Z (int_of lamb) <= 0 ∧ inject_Z (int_of lamb) - 1 < lamb)
  ∧ (- (1) < lamb → lamb < 1 →
     compute_tsp_seq_for_route constrained_tsp score data lamb
       = compute_tsp_seq_for_route constrained_tsp score data 0).
Proof.
  assert (Hsame : ∀ l l', int_of l = int_of l' →
            compute_tsp_seq_for_route constrained_tsp score data l
            = compute_tsp_seq_for_route constrained_tsp score data l').
  { intros l l' Heq. unfold compute_tsp_seq_for_route. by rewrite Heq. }
  destruct (int_of_bounds lamb) as [Hpos Hneg].
  assert (Hz : ∀ z : Z, 0 <= inject_Z z ↔ (0 <= z)%Z).
  { intros z. change 0 with (inject_Z 0). by rewrite <- Zle_Qle. }
  assert (Hz' : ∀ z : Z, inject_Z z <= 0 ↔ (z <= 0)%Z).
  { intros z. change 0 with (inject_Z 0). by rewrite <- Zle_Qle. }
  split; [|split; [|split]].
  - apply Hsame. by rewrite int_of_inject_Z.
  - intros H0. destruct (Hpos H0) as [Hle Hlt]. repeat split; try done.
    apply Hz. destruct (Z_le_gt_dec 0 (int_of lamb)) as [|Hgt]; [done|].
    assert (inject_Z (int_of lamb) + 1 <= 0); [|lra].
    change 1 with (inject_Z 1). rewrite <- inject_Z_plus. apply Hz'. lia.
  - intros H0. destruct (Hneg H0) as [Hle Hlt]. repeat split; try done.
    apply Hz'. destruct (Z_le_gt_dec (int_of lamb) 0) as [|Hgt]; [done|].
    assert (0 <= inject_Z (int_of lamb) - 1); [|lra].
    change 1 with (inject_Z 1). unfold Qminus.
    rewrite <- inject_Z_opp, <- inject_Z_plus. apply Hz. lia.
  - intros Hlo Hhi. apply Hsame. change (int_of 0) with 0%Z.
    destruct (Qlt_le_dec lamb 0) as [Hn|Hp].
    + destruct Hneg as [Hle Hlt]; [lra|].
      assert (inject_Z (-1) < inject_Z (int_of lamb)) as H1.
      { change (inject_Z (-1)) with (- (1)). lra. }
      assert (inject_Z (int_of lamb) < inject_Z 1) as H2.
      { change (inject_Z 1) with 1. lra. }
      rewrite <- Zlt_Qlt in H1, H2. lia.
    + destruct Hpos as [Hle Hlt]; [lra|].
      assert (inject_Z (-1) < inject_Z (int_of lamb)) as H1.
      { change (inject_Z (-1)) with (- (1)).
        assert (0 <= inject_Z (int_of lamb)); [|lra].
        apply Hz. destruct (Z_le_gt_dec 0 (int_of lamb)) as [|Hgt]; [done|].
        assert (inject_Z (int_of lamb) + 1 <= 0); [|lra].
        change 1 with (inject_Z 1). rewrite <- inject_Z_plus. apply Hz'. lia. }
      assert (inject_Z (int_of lamb) < inject_Z 1) as H2.
      { change (inject_Z 1) with 1. lra. }
      rewrite <- Zlt_Qlt in H1, H2. lia.
Qed.

End RouteOutcome.

(** ** When the loss and the slicing loop return *)

Section LossDefined.

Context {StopId TimeDict : Type}.
#[local] Abbreviation RouteSample := (@RouteSample StopId TimeDict).



Lemma irl_loss_nonneg (batch_output : list RouteOutput)
    (thetas_tensor : list matrix) (tsp_data : list RouteSample)
    (model : Model) (v : Q) :
  irl_loss batch_output thetas_tensor tsp_data model = Some v → 0 <= v.
Proof.
  unfold irl_loss.
  destruct (for_in _ _ 0) as [loss|] eqn:Hloop; cbn [mbind option_bind];
    [|done].
  apply (for_in_ind (λ _ loss, 0 <= loss)) in Hloop; [|lra|].
  - destruct (length batch_output); [done|]. intros [= <-].
    by apply Qdiv_nat_nonneg.
  - intros _ i s s' Hs Hbody.
    destruct (batch_output !! i) as [out|]; [|done].
    cbn [mbind option_bind] in Hbody.
    destruct (thetas_tensor !! i) as [theta|]; [|done].
    cbn [mbind option_bind] in Hbody.
    destruct (mul_sum (seq_binary_mat (out_pred_seq out)) theta) as [pc|];
      [|done].
    cbn [mbind option_bind] in Hbody.
    destruct (tsp_data !! i) as [data|]; [|done].
    cbn [mbind option_bind] in Hbody.
    destruct (mul_sum (binary_mat data) theta) as [dc|]; [|done].
    cbn [mbind option_bind] in Hbody. injection Hbody as <-.
    pose proof (Qmax_0_nonneg
                  (dc + lamb model * out_demo_tv out
                   - (pc + lamb model * out_pred_tv out))).
    unfold relu. lra.
Qed.



End LossDefined.

Section SlicingDefined.

Context {StopId TimeDict : Type}.
#[local] Abbreviation RouteSample := (@RouteSample StopId TimeDict).

Lemma slice_thetas_loop_None (obj_matrix : list Q)
    (tsp_data : list RouteSample) (idx_so_far : nat) (acc : list matrix) :
  (idx_so_far ≤ length obj_matrix)%nat →
  (length obj_matrix < idx_so_far + sum_sq (route_lens tsp_data))%nat →
  for_in tsp_data
    (λ data '(idx_so_far, thetas_tensor),
       let route_len := length (travel_times data) in
       theta ← reshape route_len route_len
                 (slice idx_so_far (idx_so_far + route_len * route_len)
                    obj_matrix);
       Some ((idx_so_far + route_len * route_len)%nat,
             thetas_tensor ++ [theta]))
    (idx_so_far, acc)
  = None.
Proof.
  revert idx_so_far acc.
  induction tsp_data as [|data tsp_data IH]; intros idx acc Hidx Hlt.
  { unfold sum_sq in Hlt. simpl in Hlt. lia. }
  rewrite for_in_cons. cbn zeta.
  change (route_lens (data :: tsp_data))
    with (length (travel_times data) :: route_lens tsp_data) in *.
  rewrite sum_sq_cons in Hlt.
  set (n := length (travel_times data)) in *.
  destruct (decide (idx + n * n ≤ length obj_matrix)%nat) as [Hfit|Hover].
  - rewrite reshape_Some by (rewrite length_slice; lia).
    cbn [mbind option_bind]. apply IH; lia.
  - unfold reshape. rewrite decide_False; [done|].
    unfold slice. rewrite length_take, length_drop. lia.
Qed.

Lemma slices_take (obj : list Q) (s start : nat) (lens : list nat) :
  (start + sum_sq lens ≤ s)%nat →
  zip_with (λ n '(lo, hi), rows_of n n (slice lo hi (take s obj)))
    lens (slice_bounds start lens)
  = zip_with (λ n '(lo, hi), rows_of n n (slice lo hi obj))
      lens (slice_bounds start lens).
Proof.
  revert start. induction lens as [|m lens IH]; intros start Hle; [done|].
  rewrite sum_sq_cons in Hle. cbn [slice_bounds zip_with].
  rewrite IH by lia. f_equal. f_equal. unfold slice.
  rewrite (take_drop_commute obj), (take_drop_commute (take s obj)).
  rewrite take_take. do 2 f_equal. lia.
Qed.

(** X8.  The slicing loop of [fit] returns exactly when the flat
    predictor output has at least as many entries as the squares of the
    stop counts add up to; it never checks that the output is used up:
    the matrices laid end to end are the first so many entries, and any
    output with the same first entries gives the same matrices. *)
Theorem slice_thetas_defined (obj_matrix : list Q)
    (tsp_data : list RouteSample) :
  (is_Some (slice_thetas obj_matrix tsp_data) ↔
   (sum_sq (route_lens tsp_data) ≤ length obj_matrix)%nat)
  ∧ (∀ thetas_tensor,
       slice_thetas obj_matrix tsp_data = Some thetas_tensor →
       concat (flatten <$> thetas_tensor)
       = take (sum_sq (route_lens tsp_data)) obj_matrix
       ∧ ∀ obj_matrix',
           take (sum_sq (route_lens tsp_data)) obj_matrix'
           = take (sum_sq (route_lens tsp_data)) obj_matrix →
           slice_thetas obj_matrix' tsp_data = Some thetas_tensor).
Proof.
  set (s := sum_sq (route_lens tsp_data)).
  assert (Hrun : ∀ obj, (s ≤ length obj)%nat →
            slice_thetas obj tsp_data
            = Some (zip_with (λ n '(lo, hi), rows_of n n (slice lo hi obj))
                      (route_lens tsp_data)
                      (slice_bounds 0 (route_lens tsp_data)))).
  { intros obj Hle.
    pose proof (slice_thetas_loop obj tsp_data 0 []) as Hloop.
    unfold slice_thetas. cbv zeta in *.
    by rewrite Hloop by (fold s; lia). }
  destruct (decide (s ≤ length obj_matrix)%nat) as [Hle|Hgt].
  - rewrite (Hrun obj_matrix Hle). split; [split; [done|by eexists]|].
    intros thetas [= <-]. split.
    + rewrite concat_slices by (fold s; lia). fold s. unfold slice.
      by rewrite drop_0, Nat.sub_0_r.
    + intros obj' Htake.
      assert (s ≤ length obj')%nat as Hle'.
      { apply (f_equal length) in Htake.
        rewrite !length_take in Htake. lia. }
      rewrite (Hrun obj' Hle'). f_equal.
      rewrite <- (slices_take obj' s 0) by (fold s; lia).
      rewrite <- (slices_take obj_matrix s 0) by (fold s; lia).
      by rewrite Htake.
  - assert (slice_thetas obj_matrix tsp_data = None) as ->.
    { pose proof (slice_thetas_loop_None obj_matrix tsp_data 0 []) as Hloop.
      unfold slice_thetas. cbv zeta in *.
      by rewrite Hloop by (fold s; lia). }
    split; [|done]. split; [by intros [? ?]|lia].
Qed.

End SlicingDefined.

(** ** The loss at a reproduced demonstration *)

Section Reproduced.

Context {StopId TimeDict : Type}.
Variable constrained_tsp :
  matrix → matrix → list window → nat → Z → sequence.
Variable score : list StopId → list StopId → TimeDict → Q.

#[local] Abbreviation RouteSample := (@RouteSample StopId TimeDict).
#[local] Abbreviation RouteData := (@RouteData StopId TimeDict).

(** A route whose predicted sequence is its label has the same two
    violations. *)
Lemma tsp_func_same_violation (lamb : Q) (data : RouteData)
    (out : RouteOutput) :
  tsp_func constrained_tsp score lamb data = Some out →
  out_pred_seq out = rd_label data →
  out_pred_tv out = out_demo_tv out.
Proof.
  unfold tsp_func. intros Hout Hsame.
  pose proof (compute_tsp_seq_for_route_cases constrained_tsp score data lamb)
    as Hc. cbv zeta in Hc.
  destruct (closed_stop_ids (rd_stop_ids data) (rd_label data)) as [demo|];
    [|by rewrite Hc in Hout].
  destruct Hc as (depot & _ & Hc).
  set (pred_seq := constrained_tsp _ _ _ _ _) in *.
  destruct (compute_time_violation_seq _ _ pred_seq) as [pred_tv|] eqn:Hptv;
    [|by rewrite Hc in Hout].
  destruct (compute_time_violation_seq _ _ (rd_label data)) as [demo_tv|]
    eqn:Hdtv; [|by rewrite Hc in Hout].
  destruct (closed_stop_ids _ pred_seq) as [pred_ids|];
    [|by rewrite Hc in Hout].
  rewrite Hc in Hout. injection Hout as <-.
  cbn [out_pred_seq out_pred_tv out_demo_tv] in *.
  rewrite Hsame in Hptv. congruence.
Qed.

(** X9.  When the solver answers every route of a batch with the
    route's demonstrated sequence, and the samples' indicator matrices
    are those of their labels, the loss of the batch is 0: the outputs
    of the dispatcher carry equal violations and the two costs of every
    route are the same sum. *)
Theorem irl_loss_zero_at_demonstration (thetas_tensor : list matrix)
    (tsp_data : list RouteSample) (model : Model) (completion : list nat)
    (batch_output : list RouteOutput) (v : Q) :
  completion
    ≡ₚ List.seq 0 (length (zip_with batch_record thetas_tensor tsp_data)) →
  compute_tsp_seq_for_a_batch constrained_tsp score
    (zip_with batch_record thetas_tensor tsp_data) (lamb model) completion
    = Some batch_output →
  Forall (λ data, binary_mat data = seq_binary_mat (label data)) tsp_data →
  (∀ i out data, batch_output !! i = Some out → tsp_data !! i = Some data →
     out_pred_seq out = label data) →
  irl_loss batch_output thetas_tensor tsp_data model = Some v →
  v == 0.
Proof.
  intros Hperm Hbatch Hmat Hpred Hloss.
  unfold compute_tsp_seq_for_a_batch in Hbatch. cbv zeta in Hbatch.
  rewrite pool_map_ordered in Hbatch by done.
  apply mapM_Some_1 in Hbatch.
  unfold irl_loss in Hloss.
  destruct (for_in _ _ 0) as [loss|] eqn:Hloop; cbn [mbind option_bind] in Hloss;
    [|done].
  apply (for_in_ind (λ _ loss, loss == 0)) in Hloop; [|done|].
  - destruct (length batch_output); [done|]. injection Hloss as <-.
    rewrite Hloop. unfold Qdiv. apply Qmult_0_l.
  - intros _ i s s' Hs Hbody.
    destruct (batch_output !! i) as [out|] eqn:Hout; [|done].
    cbn [mbind option_bind] in Hbody.
    destruct (thetas_tensor !! i) as [theta|] eqn:Htheta; [|done].
    cbn [mbind option_bind] in Hbody.
    destruct (mul_sum (seq_binary_mat (out_pred_seq out)) theta) as [pc|]
      eqn:Hpc; [|done].
    cbn [mbind option_bind] in Hbody.
    destruct (tsp_data !! i) as [data|] eqn:Hdata; [|done].
    cbn [mbind option_bind] in Hbody.
    destruct (mul_sum (binary_mat data) theta) as [dc|] eqn:Hdc; [|done].
    cbn [mbind option_bind] in Hbody. injection Hbody as <-.
    destruct (Forall2_lookup_r _ _ _ _ _ Hbatch Hout) as (rec & Hrec & Hf).
    apply lookup_zip_with_Some in Hrec as (theta' & data' & -> & Hth' & Hd').
    rewrite Htheta in Hth'. injection Hth' as <-.
    rewrite Hdata in Hd'. injection Hd' as <-.
    pose proof (Hpred i out data Hout Hdata) as Hsame.
    pose proof (tsp_func_same_violation _ _ _ Hf Hsame) as Htv.
    rewrite (Forall_lookup_1 _ _ _ _ Hmat Hdata), <- Hsame, Hpc in Hdc.
    injection Hdc as <-. rewrite Htv. unfold relu.
    assert (Qmax 0 (pc + lamb model * out_demo_tv out
                    - (pc + lamb model * out_demo_tv out)) == 0) as Hz.
    { apply Qmax_0_zero. lra. }
    lra.
Qed.

End Reproduced.

(** ** Runs of [fit] *)

Lemma loader_len_empty (B : nat) : ((0 + B - 1) / B = 0)%nat.
Proof.
  destruct B as [|B]; [done|]. apply Nat.div_small. lia.
Qed.

Lemma Forall_best_seen (ms : list Q) :
  Forall (λ m, best_seen ms <= m) ms ∧ best_seen ms <= initial_best_loss.
Proof.
  induction ms as [|x ms [IH1 IH2]] using rev_ind.
  - split; [constructor|unfold best_seen; cbn; lra].
  - rewrite best_seen_snoc, Forall_app, Forall_singleton.
    destruct (Qlt_le_dec x (best_seen ms)) as [Hx|Hx].
    + repeat split; [|lra|lra].
      eapply Forall_impl; [exact IH1|]. intros m Hm. cbn in Hm. lra.
    + repeat split; done.
Qed.

Section FitRuns.

Context {StopId TimeDict Features : Type}.
Variable constrained_tsp :
  matrix → matrix → list window → nat → Z → sequence.
Variable score : list StopId → list StopId → TimeDict → Q.
Variable predictor : Model → list Features → list Q.
Context {OptState : Type}.
Variable optimizer_init : Model → Q → OptState.
Variable optimizer_step :
  OptState → Model → list Features → list (@RouteSample StopId TimeDict) →
  list RouteOutput → OptState * Model.

#[local] Abbreviation DataLoader := (@DataLoader StopId TimeDict Features).
#[local] Abbreviation StepState := (@StepState OptState).
#[local] Abbreviation FitState := (@FitState OptState).
#[local] Abbreviation train_step' :=
  (train_step constrained_tsp score predictor optimizer_step).
#[local] Abbreviation run_steps' :=
  (run_steps constrained_tsp score predictor optimizer_step).
#[local] Abbreviation fit_epoch' :=
  (fit_epoch constrained_tsp score predictor optimizer_step).
#[local] Abbreviation fit' :=
  (fit constrained_tsp score predictor optimizer_init optimizer_step).
#[local] Abbreviation fit_upto' :=
  (fit_upto constrained_tsp score predictor optimizer_init optimizer_step).

(** What a step that returns has computed and written. *)
Lemma train_step_inv epoch_idx len_dataloader nn_data tsp_data completion
    (st st' : StepState) :
  train_step' epoch_idx len_dataloader (nn_data, tsp_data) completion st
    = Some st' →
  ∃ thetas_tensor batch_output loss mean_score,
    slice_thetas (predictor (ss_model st) nn_data) tsp_data
      = Some thetas_tensor
    ∧ compute_tsp_seq_for_a_batch constrained_tsp score
        (zip_with batch_record thetas_tensor tsp_data)
        (lamb (ss_model st)) completion = Some batch_output
    ∧ irl_loss batch_output thetas_tensor tsp_data (ss_model st) = Some loss
    ∧ np_mean (out_seq_score <$> batch_output) = Some mean_score
    ∧ ss_epoch_loss st' = ss_epoch_loss st + loss
    ∧ ss_writer st'
      = ss_writer st
        ++ [AddScalar "Train/batch_route_loss" loss
              (epoch_idx * len_dataloader + (length tsp_data - 1));
            AddScalar "Train/batch_route_score" mean_score
              (epoch_idx * len_dataloader + (length tsp_data - 1))].
Proof.
  unfold train_step.
  destruct (slice_thetas _ tsp_data) as [thetas|] eqn:Hthetas;
    cbn [mbind option_bind]; [|done].
  destruct (compute_tsp_seq_for_a_batch _ _ _ _ _) as [batch_output|]
    eqn:Hbatch; cbn [mbind option_bind]; [|done].
  destruct (irl_loss batch_output thetas tsp_data _) as [loss|] eqn:Hloss;
    cbn [mbind option_bind]; [|done].
  destruct (optimizer_step _ _ _ _ _) as [opt' model'].
  destruct (np_mean _) as [mean_score|] eqn:Hmean; cbn [mbind option_bind];
    [|done].
  intros [= <-]. cbn [ss_writer ss_epoch_loss].
  by exists thetas, batch_output, loss, mean_score.
Qed.

Lemma global_steps_app tag l1 l2 :
  global_steps tag (l1 ++ l2) = global_steps tag l1 ++ global_steps tag l2.
Proof. apply omap_app. Qed.

(** X10.  A run over an empty dataset raises in its first epoch,
    whatever the batch size: the step loop has no batch to run, and the
    epoch means divide by [len(dataloader.dataset)]. *)
Theorem fit_empty_dataset (model : Model) (dataloader : DataLoader)
    (config : Config) (schedule : nat → nat → list nat) :
  dataset dataloader = [] →
  num_train_epochs config ≠ 0%nat →
  fit' model dataloader config schedule = None.
Proof.
  intros Hempty Hepochs.
  assert (Hepoch : ∀ epoch_idx (st : FitState),
            fit_epoch' dataloader config schedule epoch_idx st = None).
  { intros epoch_idx st.
    unfold fit_epoch, run_steps, loader_batches, loader_len.
    rewrite Hempty. cbn [length]. rewrite loader_len_empty.
    cbn [range List.seq Nat.sub fmap list_fmap imap for_in mbind option_bind].
    unfold end_epoch. by rewrite Hempty. }
  unfold fit. cbv zeta.
  destruct (num_train_epochs config) as [|n]; [done|].
  unfold range. rewrite Nat.sub_0_r. cbn [List.seq].
  by rewrite for_in_cons, Hepoch.
Qed.

(** X11.  The global step of the two scalars of a training step is
    [epoch_idx * len(dataloader)] plus the last index of the step's
    batch: the index [idx] left over from the loops over the routes,
    not the index of the step.  So when the batch size divides the size
    of the dataset, all the steps of an epoch write at one and the same
    global step. *)
Theorem run_steps_global_steps (dataloader : DataLoader)
    (schedule : nat → nat → list nat) (epoch_idx : nat) (st : FitState)
    (ss : StepState) :
  run_steps' dataloader schedule epoch_idx st = Some ss →
  ∃ new,
    ss_writer ss = fs_writer st ++ new
    ∧ global_steps "Train/batch_route_loss" new
      = (λ n, epoch_idx * loader_len dataloader + (n - 1))%nat
          <$> batch_sizes dataloader
    ∧ global_steps "Train/batch_route_score" new
      = global_steps "Train/batch_route_loss" new
    ∧ ∀ q, (0 < loader_batch_size dataloader)%nat →
        length (dataset dataloader) = (q * loader_batch_size dataloader)%nat →
        global_steps "Train/batch_route_loss" new
        = replicate q (epoch_idx * q + (loader_batch_size dataloader - 1))%nat.
Proof.
  unfold run_steps. intros Hrun.
  set (gs := λ x : nat * (list Features
                          * list (@RouteSample StopId TimeDict)),
               (epoch_idx * loader_len dataloader + (length x.2.2 - 1))%nat).
  apply (for_in_ind (λ pre (ss : StepState), ∃ new,
           ss_writer ss = fs_writer st ++ new
           ∧ global_steps "Train/batch_route_loss" new = gs <$> pre
           ∧ global_steps "Train/batch_route_score" new = gs <$> pre))
    in Hrun.
  - destruct Hrun as (new & Hw & Hl & Hs). exists new.
    assert (Hgs : gs <$> imap (λ d_idx data, (d_idx, data))
                          (loader_batches dataloader)
                  = (λ n, epoch_idx * loader_len dataloader + (n - 1))%nat
                      <$> batch_sizes dataloader).
    { rewrite fmap_imap. unfold batch_sizes. rewrite <- list_fmap_compose.
      rewrite <- imap_const. by apply imap_ext. }
    rewrite Hgs in Hl, Hs. split; [done|]. split; [done|].
    split; [congruence|]. intros q HB HD.
    destruct (batch_sizes_full dataloader q HB HD) as [Hlen Hsizes].
    by rewrite Hl, Hlen, Hsizes, fmap_replicate.
  - exists []. cbn. by rewrite app_nil_r.
  - intros pre [d_idx [nn_data tsp_data]] s s' (new & Hw & Hl & Hs) Hstep.
    apply train_step_inv in Hstep
      as (thetas & batch_output & loss & mean_score & _ & _ & _ & _ & _ & Hw').
    eexists. split; [by rewrite Hw', Hw, <- app_assoc|].
    rewrite !global_steps_app, Hl, Hs, !fmap_app. done.
Qed.

(** The step loop writes batch losses that are not negative and adds
    them up. *)
Lemma run_steps_nonneg (dataloader : DataLoader) schedule epoch_idx
    (st : FitState) (ss : StepState) :
  Forall (λ v, 0 <= v) (scalars "Train/batch_route_loss" (fs_writer st)) →
  run_steps' dataloader schedule epoch_idx st = Some ss →
  Forall (λ v, 0 <= v) (scalars "Train/batch_route_loss" (ss_writer ss))
  ∧ 0 <= ss_epoch_loss ss
  ∧ scalars "Train/loss" (ss_writer ss) = scalars "Train/loss" (fs_writer st).
Proof.
  unfold run_steps. intros Hst Hrun.
  apply (for_in_ind (λ _ (ss : StepState),
           Forall (λ v, 0 <= v) (scalars "Train/batch_route_loss" (ss_writer ss))
           ∧ 0 <= ss_epoch_loss ss
           ∧ scalars "Train/loss" (ss_writer ss)
             = scalars "Train/loss" (fs_writer st)))
    in Hrun; [done| |].
  - cbn [ss_writer ss_epoch_loss]. split; [done|]. split; [lra|done].
  - intros _ [d_idx [nn_data tsp_data]] s s' (Hall & Hsum & Hne) Hstep.
    apply train_step_inv in Hstep
      as (thetas & batch_output & loss & mean_score
          & _ & _ & Hloss & _ & Hl & Hw).
    apply irl_loss_nonneg in Hloss.
    rewrite Hw, !scalars_app, Hl.
    change (scalars "Train/batch_route_loss" [_; _]) with [loss].
    change (scalars "Train/loss"
              [AddScalar "Train/batch_route_loss" loss _;
               AddScalar "Train/batch_route_score" mean_score _])
      with (@nil Q).
    rewrite app_nil_r. split; [|split; [lra|done]].
    apply Forall_app. split; [done|]. by apply Forall_singleton.
Qed.

(** X12.  Every loss a run writes is at least 0: the batch losses, the
    mean epoch losses, and with them the best loss. *)
Theorem fit_losses_nonneg (model : Model) (dataloader : DataLoader)
    (config : Config) (schedule : nat → nat → list nat) (k : nat)
    (st : FitState) :
  fit_upto' model dataloader config schedule k = Some st →
  Forall (λ v, 0 <= v) (scalars "Train/batch_route_loss" (fs_writer st))
  ∧ Forall (λ v, 0 <= v) (scalars "Train/loss" (fs_writer st))
  ∧ 0 <= fs_best_loss st.
Proof.
  revert st. induction k as [|k IH]; intros st Hst.
  - injection Hst as <-. cbn. repeat split; try constructor. done.
  - rewrite fit_upto_S in Hst.
    destruct (fit_upto' model dataloader config schedule k) as [st_k|];
      [|done].
    cbn [mbind option_bind] in Hst.
    destruct (IH st_k eq_refl) as (Hbl & Hel & Hbest).
    unfold fit_epoch in Hst.
    destruct (run_steps' dataloader schedule k st_k) as [ss|] eqn:Hss;
      [|done].
    cbn [mbind option_bind] in Hst.
    destruct (run_steps_nonneg _ _ _ _ _ Hbl Hss) as (Hbl' & Hsum & Hel').
    unfold end_epoch in Hst.
    destruct (py_div (ss_epoch_loss ss * _) _) as [m|] eqn:Hm; [|done].
    cbn [mbind option_bind] in Hst.
    destruct (py_div (ss_epoch_score ss * _) _) as [sc|]; [|done].
    cbn [mbind option_bind] in Hst.
    assert (0 <= m) as Hm0.
    { destruct (length (dataset dataloader)) as [|D]; [done|].
      injection Hm as <-. apply Qdiv_nat_nonneg.
      apply Qmult_le_0_compat; [done|].
      change 0 with (inject_Z 0). rewrite <- Zle_Qle. lia. }
    destruct (Qlt_le_dec m (fs_best_loss st_k)); injection Hst as <-;
      cbn [fs_writer fs_best_loss]; rewrite !scalars_app, Hel'.
    + change (scalars "Train/batch_route_loss" [TorchSave _ _]) with (@nil Q).
      change (scalars "Train/batch_route_loss"
                [AddScalar "Train/loss" m k; AddScalar "Train/score" sc k])
        with (@nil Q).
      change (scalars "Train/loss" [TorchSave _ _]) with (@nil Q).
      change (scalars "Train/loss"
                [AddScalar "Train/loss" m k; AddScalar "Train/score" sc k])
        with [m].
      rewrite !app_nil_r. cbn [app]. split; [done|]. split; [|done].
      apply Forall_app. split; [done|]. by apply Forall_singleton.
    + change (scalars "Train/batch_route_loss" []) with (@nil Q).
      change (scalars "Train/batch_route_loss"
                [AddScalar "Train/loss" m k; AddScalar "Train/score" sc k])
        with (@nil Q).
      change (scalars "Train/loss" []) with (@nil Q).
      change (scalars "Train/loss"
                [AddScalar "Train/loss" m k; AddScalar "Train/score" sc k])
        with [m].
      rewrite !app_nil_r. cbn [app]. split; [done|]. split; [|done].
      apply Forall_app. split; [done|]. by apply Forall_singleton.
Qed.

(** The checkpoint of a run so far: none, or the model at the end of
    the first epoch with the least mean loss. *)
Lemma fit_upto_last_save (model : Model) (dataloader : DataLoader)
    (config : Config) (schedule : nat → nat → list nat) (k : nat)
    (st : FitState) :
  fit_upto' model dataloader config schedule k = Some st →
  (saves (fs_writer st) = []
   ∧ fs_best_loss st = initial_best_loss
   ∧ Forall (λ m, initial_best_loss <= m) (scalars "Train/loss" (fs_writer st)))
  ∨ (∃ j st_j,
       (j < k)%nat
       ∧ fit_upto' model dataloader config schedule (S j) = Some st_j
       ∧ last (saves (fs_writer st))
         = Some (fs_model st_j, checkpoint_path config)
       ∧ scalars "Train/loss" (fs_writer st) !! j = Some (fs_best_loss st)
       ∧ (∀ i m, (i < j)%nat →
            scalars "Train/loss" (fs_writer st) !! i = Some m →
            fs_best_loss st < m)
       ∧ fs_best_loss st < initial_best_loss).
Proof.
  revert st. induction k as [|k IH]; intros st Hst.
  { injection Hst as <-. left. cbn. repeat split; constructor. }
  pose proof Hst as Hrun. rewrite fit_upto_S in Hst.
  destruct (fit_upto' model dataloader config schedule k) as [st_k|] eqn:Hk;
    [|done].
  cbn [mbind option_bind] in Hst.
  destruct (fit_upto_losses _ _ _ _ _ _ _ _ _ _ _ Hk) as [Hlen Hbest].
  destruct (Forall_best_seen (scalars "Train/loss" (fs_writer st_k)))
    as [Hall Hinit].
  rewrite <- Hbest in Hall, Hinit.
  destruct (fit_epoch_checkpoint _ _ _ _ _ _ _ _ _ _ Hst)
    as (steps & saved & m & sc & Hw & [Hsv Hne] & Hlt & Hle & _).
  assert (Hsaves : saves (fs_writer st) = saves (fs_writer st_k) ++ saves saved).
  { rewrite Hw, !saves_app, Hsv. cbn [app].
    change (saves [AddScalar _ _ _; AddScalar _ _ _])
      with (@nil (Model * string)).
    by rewrite app_nil_r. }
  assert (Hms : scalars "Train/loss" (fs_writer st)
                = scalars "Train/loss" (fs_writer st_k)
                  ++ scalars "Train/loss" saved ++ [m]).
  { rewrite Hw, !scalars_app, Hne. done. }
  set (ms_k := scalars "Train/loss" (fs_writer st_k)) in *.
  destruct (Qlt_le_dec m (fs_best_loss st_k)) as [H|H].
  - destruct (Hlt H) as [Hsaved Hb]. rewrite Hsaved in Hsaves, Hms.
    change (scalars "Train/loss" [TorchSave _ _]) with (@nil Q) in Hms.
    cbn [app] in Hms. right. exists k, st.
    split; [lia|]. split; [done|]. split.
    { rewrite Hsaves. change (saves [TorchSave _ _])
        with [(fs_model st, checkpoint_path config)]. apply last_snoc. }
    rewrite Hms, Hb. split.
    { rewrite <- Hlen. by apply list_lookup_middle. }
    split; [|lra]. intros i m' Hi Hm'.
    rewrite lookup_app_l in Hm' by lia.
    pose proof (Forall_lookup_1 _ _ _ _ Hall Hm') as Hge. cbn in Hge. lra.
  - destruct (Hle H) as [Hsaved Hb]. rewrite Hsaved in Hsaves, Hms.
    change (scalars "Train/loss" []) with (@nil Q) in Hms.
    cbn [app] in Hms. change (saves []) with (@nil (Model * string)) in Hsaves.
    rewrite app_nil_r in Hsaves. rewrite Hsaves, Hms, Hb.
    destruct (IH st_k eq_refl) as [(Hnil & Hbi & Hge)|
      (j & st_j & Hj & Hstj & Hlast & Hmin & Hfirst & Hbelow)].
    + left. split; [done|]. split; [done|].
      apply Forall_app. split; [done|]. apply Forall_singleton.
      rewrite <- Hbi. done.
    + right. exists j, st_j. split; [lia|]. split; [done|]. split; [done|].
      split; [by rewrite lookup_app_l by lia|]. split; [|done].
      intros i m' Hi Hm'. rewrite lookup_app_l in Hm' by lia.
      by eapply Hfirst.
Qed.

(** X13.  Whenever a run has come through [k] epochs, the best loss is
    at most every mean epoch loss written so far; nothing has been saved
    exactly when none of these losses is below [1e10]; and otherwise the
    last save, the file the checkpoint path holds, is the model at the
    end of the first epoch whose mean loss is the least of the run. *)
Theorem fit_last_checkpoint (model : Model) (dataloader : DataLoader)
    (config : Config) (schedule : nat → nat → list nat) (k : nat)
    (st : FitState) :
  fit_upto' model dataloader config schedule k = Some st →
  Forall (λ m, fs_best_loss st <= m) (scalars "Train/loss" (fs_writer st))
  ∧ (saves (fs_writer st) = []
     ↔ Forall (λ m, initial_best_loss <= m)
         (scalars "Train/loss" (fs_writer st)))
  ∧ (∀ sv, last (saves (fs_writer st)) = Some sv →
       ∃ j st_j,
         (j < k)%nat
         ∧ fit_upto' model dataloader config schedule (S j) = Some st_j
         ∧ sv = (fs_model st_j, checkpoint_path config)
         ∧ scalars "Train/loss" (fs_writer st) !! j = Some (fs_best_loss st)
         ∧ ∀ i m, (i < j)%nat →
             scalars "Train/loss" (fs_writer st) !! i = Some m →
             fs_best_loss st < m).
Proof.
  intros Hst.
  destruct (fit_upto_losses _ _ _ _ _ _ _ _ _ _ _ Hst) as [_ Hbest].
  destruct (Forall_best_seen (scalars "Train/loss" (fs_writer st)))
    as [Hall _].
  rewrite <- Hbest in Hall. split; [done|].
  destruct (fit_upto_last_save _ _ _ _ _ _ Hst)
    as [(Hnil & Hbi & Hge)|(j & st_j & Hj & Hstj & Hlast & Hmin & Hfirst & Hlow)].
  - split; [done|]. intros sv Hsv. by rewrite Hnil in Hsv.
  - split.
    + split.
      * intros Hnil. by rewrite Hnil in Hlast.
      * intros Hge. pose proof (Forall_lookup_1 _ _ _ _ Hge Hmin) as Hle.
        cbn in Hle. lra.
    + intros sv Hsv. rewrite Hlast in Hsv. injection Hsv as <-.
      by exists j, st_j.
Qed.

End FitRuns.

(** ** When the loss is zero *)

Lemma Qdiv_nat_zero (x : Q) (n : nat) :
  x / inject_Z (Z.of_nat (S n)) == 0 ↔ x == 0.
Proof.
  assert (0 < inject_Z (Z.of_nat (S n))) as Hpos.
  { change 0 with (inject_Z 0). rewrite <- Zlt_Qlt. lia. }
  split; intros H.
  - assert (x == x / inject_Z (Z.of_nat (S n)) * inject_Z (Z.of_nat (S n)))
      as -> by (field; lra).
    rewrite H. ring.
  - rewrite H. unfold Qdiv. ring.
Qed.

Section LossZero.

Context {StopId TimeDict : Type}.
#[local] Abbreviation RouteSample := (@RouteSample StopId TimeDict).

(** X14.  A loss that [irl_loss] returns is 0 exactly when, for every
    route of the batch, the demonstrated side [demo_cost + lambda *
    demo_tv] is at most the predicted side [pred_cost + lambda *
    pred_tv]: one route whose demonstration is dearer makes the loss
    positive. *)
Theorem irl_loss_zero_iff (batch_output : list RouteOutput)
    (thetas_tensor : list matrix) (tsp_data : list RouteSample)
    (model : Model) (v : Q) :
  irl_loss batch_output thetas_tensor tsp_data model = Some v →
  v == 0 ↔
  ∀ i out theta data pred_cost demo_cost,
    batch_output !! i = Some out →
    thetas_tensor !! i = Some theta →
    tsp_data !! i = Some data →
    mul_sum (seq_binary_mat (out_pred_seq out)) theta = Some pred_cost →
    mul_sum (binary_mat data) theta = Some demo_cost →
    demo_cost + lamb model * out_demo_tv out
      <= pred_cost + lamb model * out_pred_tv out.
Proof.
  set (cond := λ i : nat,
         ∀ out theta data pred_cost demo_cost,
           batch_output !! i = Some out →
           thetas_tensor !! i = Some theta →
           tsp_data !! i = Some data →
           mul_sum (seq_binary_mat (out_pred_seq out)) theta = Some pred_cost →
           mul_sum (binary_mat data) theta = Some demo_cost →
           demo_cost + lamb model * out_demo_tv out
             <= pred_cost + lamb model * out_pred_tv out).
  change (irl_loss batch_output thetas_tensor tsp_data model = Some v →
          v == 0 ↔ ∀ i, cond i).
  unfold irl_loss.
  destruct (for_in _ _ 0) as [loss|] eqn:Hloop; cbn [mbind option_bind];
    [|done].
  apply (for_in_ind (λ pre loss,
           0 <= loss ∧ (loss == 0 ↔ ∀ i, i ∈ pre → cond i))) in Hloop.
  - destruct Hloop as [_ Hiff].
    destruct (length batch_output) as [|n] eqn:Hn; [done|].
    intros [= <-]. rewrite Qdiv_nat_zero, Hiff. split.
    + intros Hall i. destruct (decide (i < S n)%nat) as [Hi|Hi].
      * apply Hall, elem_of_range. lia.
      * intros out theta data pc dc Hout. apply lookup_lt_Some in Hout. lia.
    + intros Hall i _. apply Hall.
  - split; [lra|]. split; [|done]. intros _ i Hi. by apply elem_of_nil in Hi.
  - intros pre i s s' [Hs Hiff] Hbody.
    destruct (batch_output !! i) as [out|] eqn:Hout; [|done].
    cbn [mbind option_bind] in Hbody.
    destruct (thetas_tensor !! i) as [theta|] eqn:Htheta; [|done].
    cbn [mbind option_bind] in Hbody.
    destruct (mul_sum (seq_binary_mat (out_pred_seq out)) theta) as [pc|]
      eqn:Hpc; [|done].
    cbn [mbind option_bind] in Hbody.
    destruct (tsp_data !! i) as [data|] eqn:Hdata; [|done].
    cbn [mbind option_bind] in Hbody.
    destruct (mul_sum (binary_mat data) theta) as [dc|] eqn:Hdc; [|done].
    cbn [mbind option_bind] in Hbody. injection Hbody as <-. unfold relu.
    set (x := dc + lamb model * out_demo_tv out
              - (pc + lamb model * out_pred_tv out)).
    pose proof (Qmax_0_nonneg x) as Hx.
    pose proof (Qmax_0_zero x) as Hz.
    assert (Hcond : cond i ↔ x <= 0).
    { split.
      - intros Hc. specialize (Hc out theta data pc dc Hout Htheta Hdata
                                 Hpc Hdc). unfold x. lra.
      - intros Hle out' theta' data' pc' dc' Hout' Hth' Hd' Hpc' Hdc'.
        rewrite Hout in Hout'. injection Hout' as <-.
        rewrite Htheta in Hth'. injection Hth' as <-.
        rewrite Hdata in Hd'. injection Hd' as <-.
        rewrite Hpc in Hpc'. injection Hpc' as <-.
        rewrite Hdc in Hdc'. injection Hdc' as <-.
        unfold x in Hle. lra. }
    split; [lra|]. split.
    + intros Hzero j Hj. apply elem_of_app in Hj as [Hj|Hj].
      * apply Hiff; [lra|done].
      * apply list_elem_of_singleton in Hj as ->.
        apply Hcond, Hz. lra.
    + intros Hall.
      assert (s == 0) as Hs0.
      { apply Hiff. intros j Hj. apply Hall, elem_of_app. by left. }
      assert (Qmax 0 x == 0) as Hx0.
      { apply Hz, Hcond, Hall, elem_of_app. right.
        by apply list_elem_of_singleton. }
      lra.
Qed.

End LossZero.

(** ** The order in which the workers finish *)

Section Schedule.

Context {StopId TimeDict Features : Type}.
Variable constrained_tsp :
  matrix → matrix → list window → nat → Z → sequence.
Variable score : list StopId → list StopId → TimeDict → Q.
Variable predictor : Model → list Features → list Q.
Context {OptState : Type}.
Variable optimizer_init : Model → Q → OptState.
Variable optimizer_step :
  OptState → Model → list Features → list (@RouteSample StopId TimeDict) →
  list RouteOutput → OptState * Model.

#[local] Abbreviation RouteSample := (@RouteSample StopId TimeDict).
#[local] Abbreviation DataLoader := (@DataLoader StopId TimeDict Features).
#[local] Abbreviation StepState := (@StepState OptState).
#[local] Abbreviation FitState := (@FitState OptState).
#[local] Abbreviation train_step' :=
  (train_step constrained_tsp score predictor optimizer_step).
#[local] Abbreviation run_steps' :=
  (run_steps constrained_tsp score predictor optimizer_step).
#[local] Abbreviation fit_epoch' :=
  (fit_epoch constrained_tsp score predictor optimizer_step).
#[local] Abbreviation fit' :=
  (fit constrained_tsp score predictor optimizer_init optimizer_step).

Lemma slice_thetas_length (obj_matrix : list Q) (tsp_data : list RouteSample)
    (thetas_tensor : list matrix) :
  slice_thetas obj_matrix tsp_data = Some thetas_tensor →
  length thetas_tensor = length tsp_data.
Proof.
  destruct (decide (sum_sq (route_lens tsp_data) ≤ length obj_matrix)%nat)
    as [Hle|Hgt].
  - pose proof (slice_thetas_loop obj_matrix tsp_data 0 []) as Hloop.
    unfold slice_thetas. cbv zeta in *. rewrite Hloop by lia.
    intros [= <-]. rewrite length_zip_with, length_slice_bounds.
    unfold route_lens. rewrite length_fmap. lia.
  - pose proof (slice_thetas_loop_None obj_matrix tsp_data 0 []) as Hloop.
    unfold slice_thetas. cbv zeta in *. by rewrite Hloop by lia.
Qed.

Lemma train_step_completion epoch_idx len_dataloader
    (batch : list Features * list RouteSample) (completion completion' : list nat)
    (st : StepState) :
  completion ≡ₚ List.seq 0 (length batch.2) →
  completion' ≡ₚ List.seq 0 (length batch.2) →
  train_step' epoch_idx len_dataloader batch completion st
  = train_step' epoch_idx len_dataloader batch completion' st.
Proof.
  destruct batch as [nn_data tsp_data]. cbn [snd]. intros Hc Hc'.
  unfold train_step.
  destruct (slice_thetas _ tsp_data) as [thetas|] eqn:Hthetas;
    cbn [mbind option_bind]; [|done].
  apply slice_thetas_length in Hthetas.
  unfold compute_tsp_seq_for_a_batch. cbv zeta.
  rewrite !pool_map_ordered
    by (by rewrite length_zip_with, Hthetas, Nat.min_id).
  done.
Qed.

(** X15.  A run does not depend on the order in which the workers of
    the pool finish: two runs whose steps complete their tasks in
    different orders (each order a permutation of the indices of the
    step's batch) write the same events and end with the same model,
    optimizer state and best loss, or raise both. *)
Theorem fit_schedule_independent (model : Model) (dataloader : DataLoader)
    (config : Config) (schedule schedule' : nat → nat → list nat) :
  (∀ epoch_idx d_idx batch,
     loader_batches dataloader !! d_idx = Some batch →
     schedule epoch_idx d_idx ≡ₚ List.seq 0 (length batch.2)) →
  (∀ epoch_idx d_idx batch,
     loader_batches dataloader !! d_idx = Some batch →
     schedule' epoch_idx d_idx ≡ₚ List.seq 0 (length batch.2)) →
  fit' model dataloader config schedule
  = fit' model dataloader config schedule'.
Proof.
  intros Hs Hs'. unfold fit. cbv zeta. apply for_in_ext.
  intros epoch_idx st _. unfold fit_epoch.
  assert (run_steps' dataloader schedule epoch_idx st
          = run_steps' dataloader schedule' epoch_idx st) as ->; [|done].
  unfold run_steps. apply for_in_ext. intros [d_idx batch] ss Hin.
  apply elem_of_lookup_imap_1 in Hin as (i & y & Heq & Hlookup).
  injection Heq as -> ->.
  apply train_step_completion; [by eapply Hs|by eapply Hs'].
Qed.

End Schedule.

(** * The further properties at the worked run *)

(** X1 at the worked travel times, with two feature planes: the
    three-stop cycle has a cost, and its feature cost has two entries. *)
Lemma compute_link_cost_seq_defined_worked :
  is_Some (compute_link_cost_seq Worked.times3
             [Worked.times3; one_way_matrix] [0; 1; 2]%nat)
  ∧ ∀ time_cost feature_cost,
      compute_link_cost_seq Worked.times3 [Worked.times3; one_way_matrix]
        [0; 1; 2]%nat = Some (time_cost, feature_cost) →
      length feature_cost = 2%nat.
Proof.
  destruct (compute_link_cost_seq_defined Worked.times3
              [Worked.times3; one_way_matrix] [0; 1; 2]%nat)
    as (Hiff & _ & Hlen).
  { discriminate. }
  split; [|exact Hlen].
  apply Hiff. split; [discriminate|].
  split; [|apply Forall_cons_2; [|apply Forall_cons_2; [|apply Forall_nil_2]]];
    repeat (apply Forall_cons_2; [by eexists|]); apply Forall_nil_2.
Defined.

(** X3 at the worked travel times with windows that the cycle misses at
    both ends: one unit early at position 1, one unit late at position
    2. *)
Lemma compute_time_violation_seq_penalties_worked :
  compute_time_violation_seq Worked.times3 Instances.missed_windows3
    [0; 1; 2]%nat = Some 2
  ∧ 2 = Qsum (late_penalty Worked.times3 Instances.missed_windows3
                [0; 1; 2]%nat <$> range 1 3)
        + Qsum (early_penalty Worked.times3 Instances.missed_windows3
                  [0; 1; 2]%nat <$> range 1 3).
Proof.
  assert (Hrun : compute_time_violation_seq Worked.times3
                   Instances.missed_windows3 [0; 1; 2]%nat = Some 2)
    by (vm_compute; reflexivity).
  split; [exact Hrun|].
  destruct (compute_time_violation_seq_penalties Worked.times3
              Instances.missed_windows3 [0; 1; 2]%nat 2 Hrun) as [Hsum _].
  exact Hsum.
Defined.

(** X4 at the worked record: the solver's call, then the scorer's, on
    the closed cycles A B C A and A C B A. *)
Lemma compute_tsp_seq_for_route_outcome_worked :
  ∃ depot demo_stop_ids pred_stop_ids,
    [SolverCall Worked.theta3 Worked.times3 Worked.windows3 0 2;
     ScoreCall ["A"; "B"; "C"; "A"]%string ["A"; "C"; "B"; "A"]%string []]
    = [SolverCall (rd_objective_matrix Worked.record3)
         (rd_travel_times Worked.record3)
         (rd_time_constraints Worked.record3) depot (int_of (27 # 10));
       ScoreCall demo_stop_ids pred_stop_ids
         (rd_travel_time_dict Worked.record3)]
    ∧ length demo_stop_ids = 4%nat
    ∧ last demo_stop_ids = head demo_stop_ids
    ∧ length pred_stop_ids = 4%nat
    ∧ last pred_stop_ids = head pred_stop_ids.
Proof.
  destruct (compute_tsp_seq_for_route_outcome Worked.solver Worked.scorer
              Worked.record3 (27 # 10)
              [SolverCall Worked.theta3 Worked.times3 Worked.windows3 0 2;
               ScoreCall ["A"; "B"; "C"; "A"]%string
                 ["A"; "C"; "B"; "A"]%string []]
              Worked.output3)
    as (depot & demo & pred & Hlog & _ & (Hdl & Hdc & _) & (Hpl & Hpc & _) & _).
  { vm_compute. reflexivity. }
  exists depot, demo, pred.
  split; [exact Hlog|]. split; [exact Hdl|]. split; [exact Hdc|].
  split; [exact Hpl|exact Hpc].
Defined.

(** X9 at a route whose demonstration is the worked solver's answer,
    with the costs 5, 3 and 2 on its edges: both sides cost 10 and the
    loss is 0. *)
Lemma irl_loss_zero_at_demonstration_worked :
  ∃ v, irl_loss [Worked.output3] [Instances.costs3] [Instances.reproduced3]
         Worked.model0 = Some v
       ∧ v == 0.
Proof.
  eexists. split; [vm_compute; reflexivity|].
  apply (irl_loss_zero_at_demonstration Worked.solver Worked.scorer
           [Instances.costs3] [Instances.reproduced3] Worked.model0
           [0%nat] [Worked.output3]).
  - reflexivity.
  - vm_compute. reflexivity.
  - repeat constructor.
  - intros [|i] out data Hout Hdata; [|discriminate].
    injection Hout as <-. injection Hdata as <-. reflexivity.
  - vm_compute. reflexivity.
Defined.

(** X10 at the worked configuration (one epoch) with a loader over no
    routes. *)
Lemma fit_empty_dataset_worked :
  fit Worked.solver Worked.scorer Worked.predict Worked.opt_init
    Worked.opt_step Worked.model0 Instances.empty_loader Worked.config
    Worked.schedule = None.
Proof.
  apply (fit_empty_dataset Worked.solver Worked.scorer Worked.predict
           Worked.opt_init Worked.opt_step Worked.model0
           Instances.empty_loader Worked.config Worked.schedule).
  - reflexivity.
  - discriminate.
Defined.

(** X11 at the worked run: the first step (two routes) writes at the
    global step 1, the second step (one route) at the global step 0. *)
Lemma run_steps_global_steps_worked :
  ∃ ss new,
    run_steps Worked.solver Worked.scorer Worked.predict Worked.opt_step
      Worked.loader Worked.schedule 0
      (mkFitState Worked.model0 tt initial_best_loss []) = Some ss
    ∧ ss_writer ss = new
    ∧ global_steps "Train/batch_route_loss" new = [1; 0]%nat.
Proof.
  assert (Hrun : run_steps Worked.solver Worked.scorer Worked.predict
                   Worked.opt_step Worked.loader Worked.schedule 0
                   (mkFitState Worked.model0 tt initial_best_loss [])
                 = Some (mkStepState Worked.model0 tt (4 # 2) (0 # 2)
                           [AddScalar "Train/batch_route_loss" (2 # 2) 1;
                            AddScalar "Train/batch_route_score" (0 # 2) 1;
                            AddScalar "Train/batch_route_loss" 1 0;
                            AddScalar "Train/batch_route_score" 0 0]))
    by (vm_compute; reflexivity).
  destruct (run_steps_global_steps Worked.solver Worked.scorer Worked.predict
              Worked.opt_step Worked.loader Worked.schedule 0 _ _ Hrun)
    as (new & Hw & Hl & _).
  eexists _, new. split; [exact Hrun|]. split; [exact Hw|exact Hl].
Defined.

(** X12 at the worked run of one epoch. *)
Lemma fit_losses_nonneg_worked :
  ∃ st,
    fit_upto Worked.solver Worked.scorer Worked.predict Worked.opt_init
      Worked.opt_step Worked.model0 Worked.loader Worked.config
      Worked.schedule 1 = Some st
    ∧ Forall (λ v, 0 <= v) (scalars "Train/batch_route_loss" (fs_writer st))
    ∧ Forall (λ v, 0 <= v) (scalars "Train/loss" (fs_writer st))
    ∧ 0 <= fs_best_loss st.
Proof.
  assert (Hrun : fit_upto Worked.solver Worked.scorer Worked.predict
                   Worked.opt_init Worked.opt_step Worked.model0
                   Worked.loader Worked.config Worked.schedule 1
                 = Some (mkFitState Worked.model0 tt (8 # 6)
                           [AddScalar "Train/batch_route_loss" (2 # 2) 1;
                            AddScalar "Train/batch_route_score" (0 # 2) 1;
                            AddScalar "Train/batch_route_loss" 1 0;
                            AddScalar "Train/batch_route_score" 0 0;
                            TorchSave Worked.model0 "out/best_model_run.pt";
                            AddScalar "Train/loss" (8 # 6) 0;
                            AddScalar "Train/score" (0 # 6) 0]))
    by (vm_compute; reflexivity).
  eexists. split; [exact Hrun|].
  exact (fit_losses_nonneg Worked.solver Worked.scorer Worked.predict
           Worked.opt_init Worked.opt_step Worked.model0 Worked.loader
           Worked.config Worked.schedule 1 _ Hrun).
Defined.

(** X13 at the worked run of one epoch: the one save is the model at
    the end of epoch 0, whose loss 4/3 is the best loss. *)
Lemma fit_last_checkpoint_worked :
  ∃ st,
    fit_upto Worked.solver Worked.scorer Worked.predict Worked.opt_init
      Worked.opt_step Worked.model0 Worked.loader Worked.config
      Worked.schedule 1 = Some st
    ∧ Forall (λ m, fs_best_loss st <= m) (scalars "Train/loss" (fs_writer st))
    ∧ ∃ j (st_j : @FitState unit),
        (j < 1)%nat
        ∧ (Worked.model0, "out/best_model_run.pt"%string)
          = (fs_model st_j, checkpoint_path Worked.config)
        ∧ scalars "Train/loss" (fs_writer st) !! j = Some (fs_best_loss st).
Proof.
  assert (Hrun : fit_upto Worked.solver Worked.scorer Worked.predict
                   Worked.opt_init Worked.opt_step Worked.model0
                   Worked.loader Worked.config Worked.schedule 1
                 = Some (mkFitState Worked.model0 tt (8 # 6)
                           [AddScalar "Train/batch_route_loss" (2 # 2) 1;
                            AddScalar "Train/batch_route_score" (0 # 2) 1;
                            AddScalar "Train/batch_route_loss" 1 0;
                            AddScalar "Train/batch_route_score" 0 0;
                            TorchSave Worked.model0 "out/best_model_run.pt";
                            AddScalar "Train/loss" (8 # 6) 0;
                            AddScalar "Train/score" (0 # 6) 0]))
    by (vm_compute; reflexivity).
  destruct (fit_last_checkpoint Worked.solver Worked.scorer Worked.predict
              Worked.opt_init Worked.opt_step Worked.model0 Worked.loader
              Worked.config Worked.schedule 1 _ Hrun)
    as (Hall & _ & Hlast).
  destruct (Hlast (Worked.model0, "out/best_model_run.pt"%string) eq_refl)
    as (j & st_j & Hj & _ & Hsv & Hmin & _).
  eexists. split; [exact Hrun|]. split; [exact Hall|].
  exists j, st_j. split; [exact Hj|]. split; [exact Hsv|exact Hmin].
Defined.

(** X14 at the route whose demonstration the solver reproduces: the
    loss is 0, so the demonstrated side, 10, is at most the predicted
    side, 10. *)
Lemma irl_loss_zero_iff_worked :
  irl_loss [Worked.output3] [Instances.costs3] [Instances.reproduced3]
    Worked.model0 = Some 0
  ∧ 10 + lamb Worked.model0 * out_demo_tv Worked.output3
    <= 10 + lamb Worked.model0 * out_pred_tv Worked.output3.
Proof.
  assert (Hrun : irl_loss [Worked.output3] [Instances.costs3]
                   [Instances.reproduced3] Worked.model0 = Some 0)
    by (vm_compute; reflexivity).
  split; [exact Hrun|].
  destruct (irl_loss_zero_iff [Worked.output3] [Instances.costs3]
              [Instances.reproduced3] Worked.model0 0 Hrun) as [Hto _].
  apply (Hto (Qeq_refl 0) 0%nat Worked.output3 Instances.costs3
           Instances.reproduced3 10 10);
    first [reflexivity | vm_compute; reflexivity].
Defined.

(** X15 at the worked run: the run in which the second worker finishes
    first in the first step is the run in which the workers finish in
    order. *)
Lemma fit_schedule_independent_worked :
  fit Worked.solver Worked.scorer Worked.predict Worked.opt_init
    Worked.opt_step Worked.model0 Worked.loader Worked.config Worked.schedule
  = fit Worked.solver Worked.scorer Worked.predict Worked.opt_init
      Worked.opt_step Worked.model0 Worked.loader Worked.config
      Instances.in_order_schedule.
Proof.
  apply (fit_schedule_independent Worked.solver Worked.scorer Worked.predict
           Worked.opt_init Worked.opt_step Worked.model0 Worked.loader
           Worked.config Worked.schedule Instances.in_order_schedule).
  - intros epoch_idx [|[|d_idx]] batch Hbatch; vm_compute in Hbatch;
      [| |discriminate]; injection Hbatch as <-;
      [apply perm_swap|reflexivity].
  - intros epoch_idx [|[|d_idx]] batch Hbatch; vm_compute in Hbatch;
      [| |discriminate]; injection Hbatch as <-; reflexivity.
Defined.
